(** * runr: a shallow embedding of [index.ts]

    The interactive orchestrator of [index.ts] is glue around a handful of
    small functions.  This development embeds those functions (the accessors
    over the parsed [config.yml], the workflow filter, the input-schema
    projection, the prompt builder, the argument and display builders, and
    the bookmark saver) and proves the properties the specification states
    about them.  A second part covers the login probe, the lookups by
    repository name, and what [runWorkflowCreation] computes between its
    prompts: the selection menu, the decoding of the selected value and the
    bookmark built from the answers.

    Conventions.
    - A JavaScript string is a Rocq [string]: a sequence of code units below
      256.  On such strings the code-unit order of JavaScript's [<] is
      [String.compare].
    - A plain JavaScript object that is only ever enumerated is the list of
      its own entries in the order [Object.entries] reports them; an object
      used as a dictionary that is written by key is a [gmap].
      Property names are ordinary keys (not [__proto__]).
    - [parseYaml] returns a fresh tree: the parsed documents carry no YAML
      anchors, so no two repositories share a bookmark array.
    - Promises are computations over an explicit [World] (the files on disk,
      the answers of the [gh] subprocess and the log of [writeFile] calls)
      that resolve to a value or reject with an error.
    - The file system fails in one way only: [readFile] on a path at which
      there is no file.  Permissions, full disks and paths that are
      directories are outside the model, so nothing here speaks of a
      [writeFile] that rejects.
    - [parseYaml] is followed by a cast, not by a validation.  The records
      below describe the documents the casts are right about: a
      configuration has a [repos] list whose entries have a name and a
      branch list, and each declared workflow input is a mapping.  A
      document of another shape (a null document, a configuration without
      [repos], a workflow input with an empty body) is outside the records,
      and what the code does on it, a [TypeError] at the first property read
      from null or undefined, is not stated here.  The one such read that is
      part of the model is [workflow.on.workflow_dispatch.inputs] of a
      workflow whose dispatch trigger carries no mapping.
    - A Number is an integer of the range in which JavaScript keeps integers
      exact and prints them in plain decimal digits (up to 2^53 - 1 in
      absolute value); theorems about ids that are printed and parsed state
      that range. *)

From stdpp Require Import base strings list gmap sorting pretty.

Local Open Scope string_scope.
Local Open Scope list_scope.

(** ** JavaScript values and the string operations the code relies on *)

Module Js.

(** The primitive values that reach the embedded functions: a YAML scalar
    or a prompt answer.  [JNumber] covers the integral Numbers that
    [ToString] prints in plain decimal digits: JavaScript switches to the
    exponent form from 10^21 on, and keeps integers exact up to
    [MAX_SAFE_INTEGER]. *)
Inductive JsValue : Type :=
  | JUndefined
  | JNull
  | JBoolean (b : bool)
  | JNumber (n : Z)
  | JString (s : string).

(** [Number.MAX_SAFE_INTEGER], 2^53 - 1. *)
Definition MAX_SAFE_INTEGER : Z := 9007199254740991%Z.

Definition Boolean_toString (b : bool) : string :=
  if b then "true" else "false".

(** [String(v)], which is also what a template literal [`${v}`] and
    ["..." + v] compute on these values. *)
Definition ToString (v : JsValue) : string :=
  match v with
  | JUndefined => "undefined"
  | JNull => "null"
  | JBoolean b => Boolean_toString b
  | JNumber n => pretty n
  | JString s => s
  end.

(** [v ?? d] *)
Definition nullish (v d : JsValue) : JsValue :=
  match v with
  | JUndefined | JNull => d
  | _ => v
  end.

(** An object that is only enumerated: its entries in [Object.entries]
    order. *)
Definition JsObject (V : Type) : Type := list (string * V).

Definition Object_entries {V : Type} (o : JsObject V) : list (string * V) := o.

Definition char_LF : Ascii.ascii := Ascii.ascii_of_nat 10.
Definition char_SP : Ascii.ascii := Ascii.ascii_of_nat 32.

(** The one-character string of a line feed. *)
Definition LF : string := String char_LF EmptyString.

Fixpoint spaces (n : nat) : string :=
  match n with
  | O => ""
  | S n' => String char_SP (spaces n')
  end.

(** [s.padEnd(targetLength)]: the pad string defaults to a single space and
    is appended. *)
Definition padEnd (s : string) (targetLength : nat) : string :=
  s +:+ spaces (targetLength - String.length s).

(** [s.padStart(targetLength)]: the padding is put in front. *)
Definition padStart (s : string) (targetLength : nat) : string :=
  spaces (targetLength - String.length s) +:+ s.

(** [arr.join(sep)] on an array of strings. *)
Fixpoint Array_join (sep : string) (arr : list string) : string :=
  match arr with
  | [] => ""
  | [x] => x
  | x :: rest => x +:+ sep +:+ Array_join sep rest
  end.

(** [arr.push(a, b)] *)
Definition Array_push2 {A : Type} (arr : list A) (a b : A) : list A :=
  arr ++ [a; b].

(** [arr.sort()] without a comparator orders the elements by the code
    units of their [ToString] image and is stable: of two elements whose
    images are equal the one that came first stays first.  A stable sort
    is determined by its comparison, so insertion from the right serves as
    the model. *)
Section DefaultSort.
Context {A : Type} (toString : A → string).

Fixpoint sort_insert (x : A) (sorted : list A) : list A :=
  match sorted with
  | [] => [x]
  | y :: rest =>
      if String.ltb (toString y) (toString x)
      then y :: sort_insert x rest
      else x :: sorted
  end.

Fixpoint Array_sort (arr : list A) : list A :=
  match arr with
  | [] => []
  | x :: rest => sort_insert x (Array_sort rest)
  end.

(** The order the sort establishes: by the string images. *)
Definition image_le (x y : A) : Prop := String.le (toString x) (toString y).
End DefaultSort.

(** [Object.prototype.toString] on a plain object. *)
Definition Object_toString {A : Type} (_ : A) : string := "[object Object]".

(** [haystack.includes(needle)] *)
Fixpoint startsWith (needle haystack : string) : bool :=
  match needle, haystack with
  | EmptyString, _ => true
  | String a n', String b h' => if Ascii.eqb a b then startsWith n' h' else false
  | String _ _, EmptyString => false
  end.

Fixpoint includes (haystack needle : string) : bool :=
  startsWith needle haystack ||
  match haystack with
  | EmptyString => false
  | String _ h' => includes h' needle
  end.

(** Whether the code unit [c] occurs in [s]. *)
Fixpoint mentions (c : Ascii.ascii) (s : string) : bool :=
  match s with
  | EmptyString => false
  | String a s' => Ascii.eqb a c || mentions c s'
  end.

(** [s.split(c)] for a one-character separator: the pieces between the
    occurrences of [c], of which there is always at least one. *)
Fixpoint split (c : Ascii.ascii) (s : string) : list string :=
  match s with
  | EmptyString => [""]
  | String a s' =>
      if Ascii.eqb a c then "" :: split c s'
      else match split c s' with
           | piece :: pieces => String a piece :: pieces
           | [] => [String a ""]
           end
  end.

End Js.

Import Js.

(** ** The world a promise runs in *)

Inductive JsError : Type :=
  | ENOENT (path : string)          (* readFile on a path that does not exist *)
  | YAMLParseError (text : string)  (* parseYaml throws *)
  | ExecaError (argv : list string) (* the subprocess fails *)
  | Error (message : string)        (* throw new Error(message) *)
  | TypeError.                      (* a property is read from null or undefined *)

Inductive Outcome (A : Type) : Type :=
  | Resolved (a : A)
  | Rejected (e : JsError).
Arguments Resolved {A} a.
Arguments Rejected {A} e.

Record World : Type := mkWorld {
  files : gmap string string;
  gh : list string → option string;
  writeFileCalls : list (string * string)
}.

Definition Promise (A : Type) : Type := World → Outcome A * World.

Definition resolve {A : Type} (a : A) : Promise A := λ w, (Resolved a, w).

Definition reject {A : Type} (e : JsError) : Promise A := λ w, (Rejected e, w).

Definition await {A B : Type} (p : Promise A) (k : A → Promise B) : Promise B :=
  λ w, match p w with
       | (Resolved a, w') => k a w'
       | (Rejected e, w') => (Rejected e, w')
       end.

Notation "'let!' x := p 'in' k" := (await p (λ x, k))
  (at level 10, x name, p at level 100, k at level 200).

(** [readFile(path, "utf8")] *)
Definition readFile (path : string) : Promise string :=
  λ w, match files w !! path with
       | Some text => (Resolved text, w)
       | None => (Rejected (ENOENT path), w)
       end.

(** [writeFile(path, data, "utf8")]: the file is created or overwritten. *)
Definition writeFile (path data : string) : Promise unit :=
  λ w, (Resolved (),
        mkWorld (<[path := data]> (files w)) (gh w)
                (writeFileCalls w ++ [(path, data)])).

(** [execa("gh", argv)], resolving to the subprocess's stdout. *)
Definition execa (argv : list string) : Promise string :=
  λ w, match gh w argv with
       | Some stdout => (Resolved stdout, w)
       | None => (Rejected (ExecaError argv), w)
       end.

(** The YAML library is an external collaborator: a parser that may throw and
    a serializer, each a pure function. *)
Class YamlParse (A : Type) := yaml_parse : string → option A.
Class YamlStringify (A : Type) := stringifyYaml : A → string.

Definition parseYaml {A : Type} `{!YamlParse A} (text : string) : Promise A :=
  match yaml_parse text with
  | Some doc => resolve doc
  | None => reject (YAMLParseError text)
  end.

(** ** Data model *)

Record Bookmark : Type := mkBookmark {
  bm_nickname : string;
  bm_workflow : string;
  bm_branch : string;
  bm_inputs : JsObject string
}.

(** An entry of [RepoConfig.repos]; [bookmarks?] is an optional key. *)
Record Repo : Type := mkRepo {
  repo_name : string;
  repo_branches : list string;
  repo_bookmarks : option (list Bookmark)
}.

Record RepoConfig : Type := mkRepoConfig {
  repos : list Repo
}.

Record Workflow : Type := mkWorkflow {
  wf_name : string;
  wf_path : string;
  wf_id : Z;
  wf_state : string
}.

Record WorkflowInput : Type := mkWorkflowInput {
  wi_name : string;
  wi_type : string;
  wi_default : string;
  wi_options : option (list string);
  wi_required : bool
}.

(** Modelled from the spec: [WorkflowDispatchInput] and
    [WorkflowDispatchParsed] are declared in [workflow_types.ts], which is
    not part of the sources at hand.  An input declaration carries a type, a
    default that may be missing, an options list that may be missing, and
    the required flag; the parsed workflow reaches the dispatch trigger's
    optional input map through [on.workflow_dispatch.inputs]. *)
Record WorkflowDispatchInput : Type := mkWorkflowDispatchInput {
  wdi_type : string;
  wdi_default : JsValue;
  wdi_options : option (list string);
  wdi_required : bool
}.

(** What [workflow.on.workflow_dispatch] evaluates to: a mapping whose
    [inputs] key may be missing, or nothing that a property can be read from
    ([NoWorkflowDispatch]): the trigger is bare ([workflow_dispatch:] with no
    value, which YAML reads as null) or is not declared at all. *)
Inductive WorkflowDispatch : Type :=
  | mkWorkflowDispatch (inputs : option (JsObject WorkflowDispatchInput))
  | NoWorkflowDispatch.

(** The input map of a trigger that has one. *)
Definition wd_inputs (trigger : WorkflowDispatch)
    : option (JsObject WorkflowDispatchInput) :=
  match trigger with
  | mkWorkflowDispatch inputs => inputs
  | NoWorkflowDispatch => None
  end.

Record WorkflowOn : Type := mkWorkflowOn {
  on_workflow_dispatch : WorkflowDispatch
}.

Record WorkflowDispatchParsed : Type := mkWorkflowDispatchParsed {
  wdp_on : WorkflowOn
}.

(** Modelled from the spec: [isChoiceInput] lives in [workflow_types.ts];
    options are populated only for the [choice] type, so the guard tests the
    declared type against that literal. *)
Definition isChoiceInput (input : WorkflowDispatchInput) : bool :=
  String.eqb (wdi_type input) "choice".

(** The deferred prompt constructors, as the widget call each one makes. *)
Record SelectOption : Type := mkSelectOption {
  opt_value : string;
  opt_label : string
}.

Inductive Prompt : Type :=
  | text (message placeholder initialValue : string)
  | select (message : string) (options : list SelectOption) (initialValue : string).

(** ** The functions of [index.ts] *)

(** [arr.find(pred)]: the first element that satisfies the predicate. *)
Definition Array_find {A : Type} (P : A → Prop) `{!∀ x, Decision (P x)}
    (arr : list A) : option A :=
  snd <$> list_find P arr.

Definition loadConfig `{!YamlParse RepoConfig} (configPath : string) : Promise RepoConfig :=
  let! configText := readFile configPath in
  parseYaml configText.

Definition getRepoList (config : RepoConfig) : list string :=
  Array_sort id (map repo_name (repos config)).

Definition getBranchesForRepo (config : RepoConfig) (repoName : string) : list string :=
  match Array_find (λ r, repo_name r = repoName) (repos config) with
  | Some repo => repo_branches repo
  | None => []
  end.

Definition getBookmarksForRepo (config : RepoConfig) (repoName : string) : list Bookmark :=
  match Array_find (λ r, repo_name r = repoName) (repos config) with
  | Some repo => default [] (repo_bookmarks repo)
  | None => []
  end.

Definition filterActiveWorkflows (workflows : list Workflow) : list Workflow :=
  Array_sort Object_toString (filter (λ w, wf_state w = "active") workflows).

(** The projection applied to each entry of the input map. *)
Definition toWorkflowInput (entry : string * WorkflowDispatchInput) : WorkflowInput :=
  let '(name, input) := entry in
  {| wi_name := name;
     wi_type := wdi_type input;
     wi_default := ToString (nullish (wdi_default input) (JString ""));
     wi_options := if isChoiceInput input then wdi_options input else None;
     wi_required := wdi_required input |}.

(** Reading [.inputs] from a trigger that is null or undefined throws, which
    rejects the promise; [inputs ?? {}] covers the missing key only. *)
Definition getWorkflowInputs `{!YamlParse WorkflowDispatchParsed}
    (workflowName repo branch : string) : Promise (list WorkflowInput) :=
  let! workflowViewCommandOutput :=
    execa ["workflow"; "view"; workflowName; "-R"; repo; "--ref"; branch; "--yaml"] in
  let! workflow := parseYaml workflowViewCommandOutput in
  match on_workflow_dispatch (wdp_on workflow) with
  | NoWorkflowDispatch => reject TypeError
  | mkWorkflowDispatch inputs =>
      resolve (map toWorkflowInput (Object_entries (default [] inputs)))
  end.

(** What [buildInputPrompts] has produced so far: the record of prompt
    constructors keyed by input name, and the lines given to [log.error]. *)
Record PromptGroup : Type := mkPromptGroup {
  createdGroup : gmap string Prompt;
  errorLog : list string
}.

(** The type values the [switch] has a case for. *)
Definition recognizedTypes : list string :=
  ["string"; "number"; "environment"; "boolean"; "choice"].

Definition isTextType (type : string) : bool :=
  String.eqb type "string" || String.eqb type "number" || String.eqb type "environment".

(** The body of the [forEach] callback: one pass of the [switch]. *)
Definition promptFor (input : WorkflowInput) : option Prompt :=
  if isTextType (wi_type input) then
    Some (text ("Input " +:+ wi_name input)
               ("Required? " +:+ Boolean_toString (wi_required input))
               (wi_default input))
  else if String.eqb (wi_type input) "boolean" then
    Some (select ("Input " +:+ wi_name input)
                 [mkSelectOption "true" "True"; mkSelectOption "false" "False"]
                 (wi_default input))
  else if String.eqb (wi_type input) "choice" then
    Some (select ("Input " +:+ wi_name input)
                 (map (λ opt, mkSelectOption opt opt) (default [] (wi_options input)))
                 (wi_default input))
  else None.

Definition buildInputPrompts_step (acc : PromptGroup) (input : WorkflowInput) : PromptGroup :=
  match promptFor input with
  | Some prompt =>
      mkPromptGroup (<[wi_name input := prompt]> (createdGroup acc)) (errorLog acc)
  | None =>
      mkPromptGroup (createdGroup acc) (errorLog acc ++ ["Invalid Input Type !"])
  end.

Definition buildInputPrompts (inputs : list WorkflowInput) : PromptGroup :=
  fold_left buildInputPrompts_step inputs (mkPromptGroup ∅ []).

Definition buildWorkflowRunArgs (workflowName repo branch : string)
    (inputGroup : JsObject JsValue) : list string :=
  fold_left
    (λ workflowRunArgs '(key, value),
       Array_push2 workflowRunArgs "-f" (key +:+ "=" +:+ ToString value))
    (Object_entries inputGroup)
    ["workflow"; "run"; workflowName; "-R"; repo; "--ref"; branch].

(** The [-f] pair an input entry contributes. *)
Definition fieldFlag (entry : string * JsValue) : list string :=
  ["-f"; entry.1 +:+ "=" +:+ ToString entry.2].

(** The callback [buildDisplayInfo] maps over the entries: two spaces, the
    key with [padEnd(15)], then [" : "] and the value. *)
Definition inputLine (entry : string * JsValue) : string :=
  let '(k, v) := entry in
  "  " +:+ padEnd k 15 +:+ " : " +:+ ToString v.

(** The array that [buildDisplayInfo] joins. *)
Definition displayLines (workflowName repo branch : string)
    (inputGroup : JsObject JsValue) : list string :=
  ["Running Workflow : " +:+ workflowName;
   "Repo             : " +:+ repo;
   "Branch           : " +:+ branch;
   "";
   "Inputs :"]
  ++ map inputLine (Object_entries inputGroup).

Definition buildDisplayInfo (workflowName repo branch : string)
    (inputGroup : JsObject JsValue) : string :=
  Array_join LF (displayLines workflowName repo branch inputGroup).

(** The per-input line in the specification's words: the key padded on the
    left to fifteen characters, then [" : "] and the value. *)
Definition leftPaddedLine (entry : string * JsValue) : string :=
  padStart entry.1 15 +:+ " : " +:+ ToString entry.2.

(** The inputs whose rendering stays on one line. *)
Definition singleLine (s : string) : Prop := mentions char_LF s = false.

Definition singleLineEntry (entry : string * JsValue) : Prop :=
  singleLine entry.1 ∧ singleLine (ToString entry.2).

(** [repo.bookmarks.push(bookmark)], after [repo.bookmarks] has been set to
    an empty array when it was missing. *)
Definition pushBookmark (repo : Repo) (bookmark : Bookmark) : Repo :=
  let repo :=
    match repo_bookmarks repo with
    | None => mkRepo (repo_name repo) (repo_branches repo) (Some [])
    | Some _ => repo
    end in
  mkRepo (repo_name repo) (repo_branches repo)
         (Some (default [] (repo_bookmarks repo) ++ [bookmark])).

(** [find] hands out the repository object itself, so the push is seen by
    [config]: the element at the found index is replaced. *)
Definition saveBookmark `{!YamlParse RepoConfig, !YamlStringify RepoConfig}
    (configPath repoName : string) (bookmark : Bookmark) : Promise unit :=
  let! configText := readFile configPath in
  let! config := parseYaml configText in
  match list_find (λ r, repo_name r = repoName) (repos config) with
  | None => reject (Error ("Repository " +:+ repoName +:+ " not found in config"))
  | Some (i, repo) =>
      let config := mkRepoConfig (<[i := pushBookmark repo bookmark]> (repos config)) in
      writeFile configPath (stringifyYaml config)
  end.

(** ** More of the JavaScript library: numbers in text, trimming, objects
    built from entries *)

Module JsText.

Definition codeUnit (c : Ascii.ascii) : N := Ascii.N_of_ascii c.

Definition char_colon : Ascii.ascii := Ascii.ascii_of_nat 58.

(** White space and line terminators among the code units below 256: TAB,
    LF, VT, FF, CR, SP and NBSP. *)
Definition isWhiteSpace (c : Ascii.ascii) : bool :=
  let n := codeUnit c in
  ((9 <=? n) && (n <=? 13) || (n =? 32) || (n =? 160))%N.

(** The value of a digit or letter as a numeral, before the radix is
    applied. *)
Definition digitValue (c : Ascii.ascii) : option N :=
  let n := codeUnit c in
  if ((48 <=? n) && (n <=? 57))%N then Some (n - 48)%N
  else if ((97 <=? n) && (n <=? 122))%N then Some (n - 87)%N
  else if ((65 <=? n) && (n <=? 90))%N then Some (n - 55)%N
  else None.

Definition radixDigit (radix : N) (c : Ascii.ascii) : option N :=
  match digitValue c with
  | Some d => if (d <? radix)%N then Some d else None
  | None => None
  end.

(** [s.trimStart()] *)
Fixpoint trimStart (s : string) : string :=
  match s with
  | EmptyString => EmptyString
  | String c s' => if isWhiteSpace c then trimStart s' else s
  end.

(** [s.trimEnd()] *)
Fixpoint trimEnd (s : string) : string :=
  match s with
  | EmptyString => EmptyString
  | String c s' =>
      match trimEnd s' with
      | EmptyString => if isWhiteSpace c then EmptyString else String c EmptyString
      | kept => String c kept
      end
  end.

(** [s.trim()] *)
Definition trim (s : string) : string := trimStart (trimEnd s).

(** Whether [s] is white space from end to end, which is what [/^\s*$/]
    tests on these strings. *)
Fixpoint allWhiteSpace (s : string) : bool :=
  match s with
  | EmptyString => true
  | String c s' => isWhiteSpace c && allWhiteSpace s'
  end.

(** The number the longest prefix of radix digits denotes, read from the
    left with [acc] as what came before. *)
Fixpoint digits (radix acc : N) (s : string) : N :=
  match s with
  | EmptyString => acc
  | String c s' =>
      match radixDigit radix c with
      | Some d => digits radix (acc * radix + d) s'
      | None => acc
      end
  end.

(** [parseInt(s)] without a radix, with [None] for [NaN]: leading white
    space is skipped, a sign is read, a [0x] or [0X] prefix switches to
    radix sixteen, and the longest prefix of digits is the value; without a
    digit there is no number.  The value is exact, which is what JavaScript
    computes when the digits denote an integer up to [MAX_SAFE_INTEGER] in
    absolute value; beyond it JavaScript rounds to the nearest Number. *)
Definition parseInt (s : string) : option Z :=
  let s := trimStart s in
  let '(negative, s) :=
    match s with
    | String c s' =>
        if (codeUnit c =? 45)%N then (true, s')
        else if (codeUnit c =? 43)%N then (false, s')
        else (false, s)
    | EmptyString => (false, s)
    end in
  let '(radix, s) :=
    if startsWith "0x" s || startsWith "0X" s
    then (16%N, match s with String _ (String _ rest) => rest | _ => s end)
    else (10%N, s) in
  match s with
  | String c _ =>
      match radixDigit radix c with
      | Some _ =>
          let n := Z.of_N (digits radix 0 s) in
          Some (if negative : bool then (- n)%Z else n)
      | None => None
      end
  | EmptyString => None
  end.

(** [arr[index]] for a Number index that is an integer: [undefined] outside
    the array. *)
Definition Array_at {A : Type} (arr : list A) (index : Z) : option A :=
  if (0 <=? index)%Z then arr !! Z.to_nat index else None.

(** [o[k] = v] on an object that is enumerated afterwards: a property that
    exists keeps its place, a new one comes last. *)
Fixpoint Object_set {V : Type} (o : JsObject V) (k : string) (v : V) : JsObject V :=
  match o with
  | [] => [(k, v)]
  | (k', v') :: rest =>
      if String.eqb k' k then (k', v) :: rest else (k', v') :: Object_set rest k v
  end.

(** [Object.fromEntries(entries)] *)
Definition Object_fromEntries {V : Type} (entries : list (string * V)) : JsObject V :=
  fold_left (λ o '(k, v), Object_set o k v) entries [].

End JsText.

Import JsText.

(** [try { ... } catch (e) { ... }] around a promise that is awaited. *)
Definition try_catch {A : Type} (p : Promise A) (handler : JsError → Promise A) : Promise A :=
  λ w, match p w with
       | (Resolved a, w') => (Resolved a, w')
       | (Rejected e, w') => handler e w'
       end.

Definition checkLogin : Promise bool :=
  try_catch (let! _ := execa ["auth"; "status"] in resolve true)
            (λ _, resolve false).

(** ** The selection menu of [runWorkflowCreation]

    The orchestrator itself is a dialogue with the terminal; what it computes
    between two prompts is embedded here, each piece under the lines it
    comes from. *)

Record MenuOption : Type := mkMenuOption {
  mo_value : string;
  mo_label : string;
  mo_hint : string
}.

(** The star of the label is held as the bytes of its UTF-8 form. *)
Definition bookmarkOption (idx : nat) (bookmark : Bookmark) : MenuOption :=
  mkMenuOption ("bookmark:" +:+ ToString (JNumber (Z.of_nat idx)))
               ("⭐ " +:+ bm_nickname bookmark)
               (bm_workflow bookmark +:+ " (" +:+ bm_branch bookmark +:+ ")").

Definition workflowOption (w : Workflow) : MenuOption :=
  mkMenuOption ("workflow:" +:+ ToString (JNumber (wf_id w))) (wf_name w) (wf_path w).

(** Bookmarks first, then the active workflows. *)
Definition workflowOptions (bookmarks : list Bookmark) (activeWorkflows : list Workflow)
    : list MenuOption :=
  (if (0 <? length bookmarks)%nat then imap bookmarkOption bookmarks else [])
  ++ map workflowOption activeWorkflows.

(** What the orchestrator makes of the selected value: it goes on with a
    bookmark or with a workflow, or logs a diagnostic and exits. *)
Inductive Selection : Type :=
  | ExitWith (code : Z) (diagnostic : string)
  | BookmarkSelected (bookmark : Bookmark)
  | WorkflowSelected (workflow : Workflow).

Definition resolveSelection (selectionStr : string)
    (bookmarks : list Bookmark) (activeWorkflows : list Workflow) : Selection :=
  if startsWith "bookmark:" selectionStr then
    match split char_colon selectionStr !! 1%nat with
    | None | Some EmptyString => ExitWith 1 "Invalid bookmark selection format"
    | Some bookmarkIndexStr =>
        match parseInt bookmarkIndexStr with
        | None => ExitWith 1 "Invalid bookmark index"
        | Some bookmarkIndex =>
            match Array_at bookmarks bookmarkIndex with
            | None => ExitWith 1 "Invalid bookmark selection"
            | Some bookmark => BookmarkSelected bookmark
            end
        end
    end
  else
    match split char_colon selectionStr !! 1%nat with
    | None | Some EmptyString => ExitWith 1 "Invalid workflow selection format"
    | Some workflowIdStr =>
        match parseInt workflowIdStr with
        | None => ExitWith 1 "Invalid workflow ID"
        | Some workflowId =>
            match Array_find (λ w, wf_id w = workflowId) activeWorkflows with
            | None => ExitWith 1 "Invalid workflow selection"
            | Some selectedWorkflow => WorkflowSelected selectedWorkflow
            end
        end
    end.

(** The bookmark built from the answers, when the nickname that was typed
    has something left after trimming (a prompt that was cancelled gives no
    string, and no bookmark). *)
Definition bookmarkToSave (nickname selectedWorkflowName actualBranch : string)
    (inputGroup : JsObject JsValue) : option Bookmark :=
  if (0 <? String.length (trim nickname))%nat then
    Some (mkBookmark (trim nickname) selectedWorkflowName actualBranch
            (Object_fromEntries
               (map (λ '(k, v), (k, ToString v)) (Object_entries inputGroup))))
  else None.

(** [inputGroup = bookmark.inputs]: the stored strings, seen as values. *)
Definition bookmarkInputGroup (bookmark : Bookmark) : JsObject JsValue :=
  map (λ '(k, v), (k, JString v)) (bm_inputs bookmark).

(** The configuration [saveBookmark] hands to the serializer: the parsed one
    after the push on the first repository of that name. *)
Definition withBookmark (config : RepoConfig) (repoName : string) (bookmark : Bookmark)
    : RepoConfig :=
  match list_find (λ r, repo_name r = repoName) (repos config) with
  | Some (i, repo) => mkRepoConfig (<[i := pushBookmark repo bookmark]> (repos config))
  | None => config
  end.

(** ** Documents used in the examples

    A stand-in for the YAML library on the documents of the test suite: the
    parser knows these texts only, and the serializer prints block style with
    plain scalars, as the library does for such values. *)

Module Fixture.

Definition text_of (lines : list string) : string := Array_join LF lines +:+ LF.

Definition printBookmark (b : Bookmark) : list string :=
  ["      - nickname: " +:+ bm_nickname b;
   "        workflow: " +:+ bm_workflow b;
   "        branch: " +:+ bm_branch b]
  ++ match bm_inputs b with
     | [] => ["        inputs: {}"]
     | inputs => "        inputs:" :: map (λ kv, "          " +:+ kv.1 +:+ ": " +:+ kv.2) inputs
     end.

Definition printRepo (r : Repo) : list string :=
  ["  - name: " +:+ repo_name r]
  ++ match repo_branches r with
     | [] => ["    branches: []"]
     | branches => "    branches:" :: map (λ b, "      - " +:+ b) branches
     end
  ++ match repo_bookmarks r with
     | None => []
     | Some [] => ["    bookmarks: []"]
     | Some bookmarks => "    bookmarks:" :: concat (map printBookmark bookmarks)
     end.

Definition printConfig : YamlStringify RepoConfig := λ config,
  match repos config with
  | [] => text_of ["repos: []"]
  | rs => text_of ("repos:" :: concat (map printRepo rs))
  end.

Definition parseTable {A : Type} (table : list (string * A)) : YamlParse A :=
  λ text : string,
    match list_find (λ entry, entry.1 = text) table with
    | Some (_, (_, doc)) => Some doc
    | None => None
    end.

(** The configuration of the bookmark tests, without and with a bookmark. *)
Definition configYaml : string :=
  text_of [""; "repos:"; "  - name: owner/repo1"; "    branches:"; "      - main"].

Definition config : RepoConfig :=
  mkRepoConfig [mkRepo "owner/repo1" ["main"] None].

Definition existingBookmark : Bookmark :=
  mkBookmark "Existing Bookmark" "old.yml" "main" [("key", "value")].

Definition bookmarkedYaml : string :=
  text_of [""; "repos:"; "  - name: owner/repo1"; "    branches:"; "      - main";
           "    bookmarks:"; "      - nickname: Existing Bookmark";
           "        workflow: old.yml"; "        branch: main";
           "        inputs:"; "          key: value"].

Definition bookmarked : RepoConfig :=
  mkRepoConfig [mkRepo "owner/repo1" ["main"] (Some [existingBookmark])].

Definition newBookmark : Bookmark :=
  mkBookmark "New Bookmark" "new.yml" "dev" [("env", "prod")].

(** What the second bookmark test leaves on disk. *)
Definition rebookmarked : RepoConfig :=
  mkRepoConfig [mkRepo "owner/repo1" ["main"] (Some [existingBookmark; newBookmark])].

Definition parseConfig : YamlParse RepoConfig :=
  parseTable [(configYaml, config); (bookmarkedYaml, bookmarked);
              (printConfig rebookmarked, rebookmarked)].

(** The Deploy workflow of the input-retrieval test. *)
Definition deployYaml : string :=
  text_of [""; "name: Deploy"; "on:"; "  workflow_dispatch:"; "    inputs:";
           "      environment:"; "        description: 'Environment to deploy to'";
           "        required: true"; "        type: choice"; "        options:";
           "          - dev"; "          - staging"; "          - prod";
           "        default: dev";
           "      version:"; "        description: 'Version to deploy'";
           "        required: false"; "        type: string"; "        default: '1.0.0'"].

Definition deploy : WorkflowDispatchParsed :=
  mkWorkflowDispatchParsed (mkWorkflowOn (mkWorkflowDispatch (Some
    [("environment",
      mkWorkflowDispatchInput "choice" (JString "dev") (Some ["dev"; "staging"; "prod"]) true);
     ("version",
      mkWorkflowDispatchInput "string" (JString "1.0.0") None false)]))).

(** A workflow whose only input is declared [choice] without an [options]
    key, with neither a default. *)
Definition bareChoiceYaml : string :=
  text_of ["name: Pick"; "on:"; "  workflow_dispatch:"; "    inputs:";
           "      target:"; "        required: true"; "        type: choice"].

Definition bareChoice : WorkflowDispatchParsed :=
  mkWorkflowDispatchParsed (mkWorkflowOn (mkWorkflowDispatch (Some
    [("target", mkWorkflowDispatchInput "choice" JUndefined None true)]))).

Definition parseWorkflow : YamlParse WorkflowDispatchParsed :=
  parseTable [(deployYaml, deploy); (bareChoiceYaml, bareChoice)].

(** The subprocess answers [gh workflow view ... --yaml] for the two
    workflows of [owner/repo] at [main]. *)
Definition ghAnswers (argv : list string) : option string :=
  if decide (argv = ["workflow"; "view"; "Deploy"; "-R"; "owner/repo"; "--ref"; "main"; "--yaml"])
  then Some deployYaml
  else if decide (argv = ["workflow"; "view"; "Pick"; "-R"; "owner/repo"; "--ref"; "main"; "--yaml"])
  then Some bareChoiceYaml
  else None.

Definition world (configText : string) : World :=
  mkWorld {[ "./config.yml" := configText ]} ghAnswers [].

(** A bookmark for the third save, and what the file holds after it. *)
Definition thirdBookmark : Bookmark :=
  mkBookmark "Nightly" "nightly.yml" "main" [].



(** A workflow that is dispatched by hand and declares no inputs: the
    trigger is bare, which YAML reads as null. *)
Definition manualYaml : string :=
  text_of ["name: Manual"; "on:"; "  workflow_dispatch:"].

Definition manual : WorkflowDispatchParsed :=
  mkWorkflowDispatchParsed (mkWorkflowOn NoWorkflowDispatch).

(** A workflow whose trigger is a mapping without an [inputs] key. *)
Definition plainYaml : string :=
  text_of ["name: Plain"; "on:"; "  workflow_dispatch:"; "    description: by hand"].

Definition plain : WorkflowDispatchParsed :=
  mkWorkflowDispatchParsed (mkWorkflowOn (mkWorkflowDispatch None)).

Definition parseManual : YamlParse WorkflowDispatchParsed :=
  parseTable [(manualYaml, manual); (plainYaml, plain)].

Definition manualAnswers (argv : list string) : option string :=
  if decide (argv = ["workflow"; "view"; "Manual"; "-R"; "owner/repo"; "--ref"; "main"; "--yaml"])
  then Some manualYaml
  else if decide (argv = ["workflow"; "view"; "Plain"; "-R"; "owner/repo"; "--ref"; "main"; "--yaml"])
  then Some plainYaml
  else if decide (argv = ["workflow"; "view"; "Broken"; "-R"; "owner/repo"; "--ref"; "main"; "--yaml"])
  then Some "name: [Broken"
  else None.

Definition manualWorld : World := mkWorld ∅ manualAnswers [].

End Fixture.

(** * Properties *)

(** ** The default sort *)

Section DefaultSortFacts.
Context {A : Type} (toString : A → string).

Lemma ltb_true_le (s t : string) : String.ltb s t = true → String.le s t.
Proof.
  unfold String.le, String.leb, String.ltb.
  destruct (String.compare s t); simpl; done.
Qed.

Lemma ltb_false_le (s t : string) : String.ltb s t = false → String.le t s.
Proof.
  unfold String.le, String.leb, String.ltb.
  rewrite (String.compare_antisym t s).
  destruct (String.compare s t); simpl; done.
Qed.

Lemma ltb_irrefl (s : string) : String.ltb s s = false.
Proof.
  unfold String.ltb.
  pose proof (String.compare_antisym s s) as Hanti.
  destruct (String.compare s s); simpl in Hanti; done.
Qed.

Lemma sort_insert_perm (x : A) (l : list A) :
  sort_insert toString x l ≡ₚ x :: l.
Proof.
  induction l as [|y l IH]; simpl; [done|].
  destruct (String.ltb _ _); [|done].
  rewrite IH. apply Permutation_swap.
Qed.

Lemma Array_sort_perm (l : list A) : Array_sort toString l ≡ₚ l.
Proof.
  induction l as [|x l IH]; simpl; [done|].
  by rewrite sort_insert_perm, IH.
Qed.

Lemma sort_insert_HdRel (a x : A) (l : list A) :
  image_le toString a x →
  HdRel (image_le toString) a l →
  HdRel (image_le toString) a (sort_insert toString x l).
Proof.
  intros Hax Hal. destruct l as [|y l]; simpl; [by constructor|].
  destruct (String.ltb _ _); constructor; [|done].
  by inversion Hal.
Qed.

Lemma sort_insert_sorted (x : A) (l : list A) :
  Sorted (image_le toString) l →
  Sorted (image_le toString) (sort_insert toString x l).
Proof.
  induction 1 as [|y l Hl IH Hy]; simpl.
  - repeat constructor.
  - destruct (String.ltb (toString y) (toString x)) eqn:E.
    + constructor; [done|].
      apply sort_insert_HdRel; [|done]. by apply ltb_true_le.
    + constructor; [by constructor|].
      constructor. by apply ltb_false_le.
Qed.

Lemma Array_sort_sorted (l : list A) :
  Sorted (image_le toString) (Array_sort toString l).
Proof.
  induction l as [|x l IH]; simpl; [constructor|].
  by apply sort_insert_sorted.
Qed.

(** When every element has the same image the comparison never asks for a
    move, and stability leaves the array as it was. *)
Lemma Array_sort_constant_image (s : string) (l : list A) :
  (∀ x, toString x = s) → Array_sort toString l = l.
Proof.
  intros Hs. induction l as [|x l IH]; simpl; [done|].
  rewrite IH. destruct l as [|y l]; simpl; [done|].
  by rewrite !Hs, ltb_irrefl.
Qed.
End DefaultSortFacts.

Lemma image_le_id_Sorted (l : list string) :
  Sorted (image_le id) l ↔ Sorted String.le l.
Proof. done. Qed.

(** ** Run arguments *)

Lemma buildWorkflowRunArgs_loop (entries : list (string * JsValue)) (acc : list string) :
  fold_left
    (λ workflowRunArgs '(key, value),
       Array_push2 workflowRunArgs "-f" (key +:+ "=" +:+ ToString value))
    entries acc
  = acc ++ concat (map fieldFlag entries).
Proof.
  revert acc. induction entries as [|[k v] entries IH]; intros acc; simpl.
  - by rewrite app_nil_r.
  - rewrite IH. unfold Array_push2, fieldFlag. simpl.
    by rewrite <- app_assoc.
Qed.

(** C1. [buildWorkflowRunArgs] returns the fixed seven-element prefix
    [workflow run w -R r --ref b] followed by ["-f"; "key=value"] for each
    entry of the mapping in iteration order; an empty mapping adds nothing,
    and the Deploy example yields the eleven expected elements. *)
Theorem buildWorkflowRunArgs_spec :
  (∀ (w r b : string) (m : JsObject JsValue),
     buildWorkflowRunArgs w r b m
     = ["workflow"; "run"; w; "-R"; r; "--ref"; b]
       ++ concat (map (λ e, ["-f"; e.1 +:+ "=" +:+ ToString e.2]) (Object_entries m)))
  ∧ (∀ w r b : string,
       buildWorkflowRunArgs w r b [] = ["workflow"; "run"; w; "-R"; r; "--ref"; b])
  ∧ buildWorkflowRunArgs "Deploy" "owner/repo" "main"
      [("environment", JString "staging"); ("version", JString "2.0.0")]
    = ["workflow"; "run"; "Deploy"; "-R"; "owner/repo"; "--ref"; "main";
       "-f"; "environment=staging"; "-f"; "version=2.0.0"].
Proof.
  split; [|split].
  - intros w r b m. unfold buildWorkflowRunArgs.
    by rewrite buildWorkflowRunArgs_loop.
  - done.
  - done.
Qed.

(** ** Active workflows *)

Lemma filterActiveWorkflows_filter (workflows : list Workflow) :
  filterActiveWorkflows workflows = filter (λ w, wf_state w = "active") workflows.
Proof.
  unfold filterActiveWorkflows.
  by apply Array_sort_constant_image with (s := "[object Object]").
Qed.

(** C3. [filterActiveWorkflows] returns exactly the entries whose state is
    ["active"], in their original relative order, and filtering its own
    output changes nothing. *)
Theorem filterActiveWorkflows_spec (workflows : list Workflow) :
  filterActiveWorkflows workflows = filter (λ w, wf_state w = "active") workflows
  ∧ (∀ w, w ∈ filterActiveWorkflows workflows ↔ w ∈ workflows ∧ wf_state w = "active")
  ∧ sublist (filterActiveWorkflows workflows) workflows
  ∧ filterActiveWorkflows (filterActiveWorkflows workflows) = filterActiveWorkflows workflows.
Proof.
  rewrite !filterActiveWorkflows_filter.
  split; [done|]. split; [|split].
  - intros w. rewrite list_elem_of_filter. tauto.
  - apply sublist_filter.
  - induction workflows as [|w ws IH]; [done|].
    rewrite filter_cons. case_decide as Hw; [|done].
    rewrite filter_cons. rewrite decide_True by done. by rewrite IH.
Qed.

Example filterActiveWorkflows_test :
  filterActiveWorkflows
    [mkWorkflow "CI" ".github/workflows/ci.yml" 1 "active";
     mkWorkflow "Old" ".github/workflows/old.yml" 2 "disabled";
     mkWorkflow "Deploy" ".github/workflows/deploy.yml" 3 "active";
     mkWorkflow "Archived" ".github/workflows/archived.yml" 4 "deleted"]
  = [mkWorkflow "CI" ".github/workflows/ci.yml" 1 "active";
     mkWorkflow "Deploy" ".github/workflows/deploy.yml" 3 "active"].
Proof. reflexivity. Qed.

(** ** Repository names *)

(** C7. [getRepoList] returns the repository names in ascending code-unit
    order, as a permutation of the names in the configuration, and the
    result is the same for every ordering of the repository list. *)
Theorem getRepoList_sorted_perm (config : RepoConfig) :
  Sorted String.le (getRepoList config)
  ∧ getRepoList config ≡ₚ map repo_name (repos config)
  ∧ (∀ config' : RepoConfig,
       repos config' ≡ₚ repos config → getRepoList config' = getRepoList config).
Proof.
  unfold getRepoList. split; [|split].
  - apply image_le_id_Sorted, Array_sort_sorted.
  - apply Array_sort_perm.
  - intros config' Hperm.
    apply (Sorted_unique String.le).
    + apply image_le_id_Sorted, Array_sort_sorted.
    + apply image_le_id_Sorted, Array_sort_sorted.
    + rewrite !Array_sort_perm. by apply fmap_Permutation.
Qed.

(** The repositories of the test suite, in two orders. *)
Lemma getRepoList_sorted_perm_witness :
  getRepoList (mkRepoConfig [mkRepo "owner/repo-a" ["dev"] None;
                             mkRepo "owner/repo-b" ["main"] None;
                             mkRepo "owner/repo-c" ["master"] None])
  = getRepoList (mkRepoConfig [mkRepo "owner/repo-b" ["main"] None;
                               mkRepo "owner/repo-a" ["dev"] None;
                               mkRepo "owner/repo-c" ["master"] None]).
Proof.
  apply (proj2 (proj2 (getRepoList_sorted_perm
    (mkRepoConfig [mkRepo "owner/repo-b" ["main"] None;
                   mkRepo "owner/repo-a" ["dev"] None;
                   mkRepo "owner/repo-c" ["master"] None])))).
  simpl. apply Permutation_swap.
Defined.

Example getRepoList_test :
  getRepoList (mkRepoConfig [mkRepo "owner/repo-b" ["main"] None;
                             mkRepo "owner/repo-a" ["dev"] None;
                             mkRepo "owner/repo-c" ["master"] None])
  = ["owner/repo-a"; "owner/repo-b"; "owner/repo-c"].
Proof. reflexivity. Qed.

Example getRepoList_case_sensitive :
  getRepoList (mkRepoConfig [mkRepo "b" [] None; mkRepo "a" [] None;
                             mkRepo "B" [] None; mkRepo "a" [] None])
  = ["B"; "a"; "a"; "b"].
Proof. reflexivity. Qed.

(** ** Strings, lines and padding *)

Lemma append_cons (a : Ascii.ascii) (s t : string) :
  String a s +:+ t = String a (s +:+ t).
Proof. reflexivity. Qed.

Lemma append_nil_l (t : string) : "" +:+ t = t.
Proof. reflexivity. Qed.

Lemma append_assoc (s t u : string) : (s +:+ t) +:+ u = s +:+ (t +:+ u).
Proof.
  induction s as [|a s IH]; [done|].
  by rewrite !append_cons, IH.
Qed.

Lemma length_append (s t : string) :
  String.length (s +:+ t) = String.length s + String.length t.
Proof.
  induction s as [|a s IH]; [done|].
  rewrite append_cons. simpl. by rewrite IH.
Qed.

Lemma length_spaces (n : nat) : String.length (spaces n) = n.
Proof. induction n as [|n IH]; simpl; [done|]. by rewrite IH. Qed.

Lemma length_padEnd (s : string) (n : nat) :
  String.length (padEnd s n) = String.length s `max` n.
Proof. unfold padEnd. rewrite length_append, length_spaces. lia. Qed.

Lemma append_nil_r (s : string) : s +:+ "" = s.
Proof.
  induction s as [|a s IH]; [done|].
  by rewrite append_cons, IH.
Qed.

Lemma padEnd_long (s : string) (n : nat) :
  (n ≤ String.length s)%nat → padEnd s n = s.
Proof.
  intros Hn. unfold padEnd. replace (n - String.length s) with 0 by lia.
  apply append_nil_r.
Qed.

Lemma startsWith_append (p s : string) : startsWith p (p +:+ s) = true.
Proof.
  induction p as [|a p IH]; [done|].
  rewrite append_cons. simpl. by rewrite Ascii.eqb_refl.
Qed.

Lemma includes_startsWith (haystack needle : string) :
  startsWith needle haystack = true → includes haystack needle = true.
Proof. intros Hpre. destruct haystack; simpl; by rewrite Hpre. Qed.

Lemma includes_append_r (p haystack needle : string) :
  includes haystack needle = true → includes (p +:+ haystack) needle = true.
Proof.
  intros Hin. induction p as [|a p IH]; [done|].
  rewrite append_cons. simpl. rewrite IH. apply orb_true_r.
Qed.

Lemma mentions_append (c : Ascii.ascii) (s t : string) :
  mentions c (s +:+ t) = mentions c s || mentions c t.
Proof.
  induction s as [|a s IH]; [done|].
  rewrite append_cons. simpl. rewrite IH. by rewrite orb_assoc.
Qed.

Lemma mentions_spaces (n : nat) : mentions char_LF (spaces n) = false.
Proof. induction n as [|n IH]; [done|]. simpl. by rewrite IH. Qed.

Lemma Array_join_cons (sep x y : string) (rest : list string) :
  Array_join sep (x :: y :: rest) = x +:+ sep +:+ Array_join sep (y :: rest).
Proof. reflexivity. Qed.

Lemma split_single (c : Ascii.ascii) (s : string) :
  mentions c s = false → split c s = [s].
Proof.
  induction s as [|a s IH]; [done|]. simpl.
  intros [Ha Hs]%orb_false_iff. rewrite Ha, IH; done.
Qed.

Lemma split_append_sep (c : Ascii.ascii) (s t : string) :
  mentions c s = false →
  split c (s +:+ String c t) = s :: split c t.
Proof.
  induction s as [|a s IH]; intros Hs.
  - rewrite append_nil_l. simpl. by rewrite Ascii.eqb_refl.
  - simpl in Hs. apply orb_false_iff in Hs as [Ha Hs].
    rewrite append_cons. simpl. rewrite Ha, IH; done.
Qed.

(** Splitting a joined array at the line feeds gives the array back, as long
    as no element holds a line feed of its own. *)
Lemma split_Array_join (x : string) (rest : list string) :
  Forall singleLine (x :: rest) →
  split char_LF (Array_join LF (x :: rest)) = x :: rest.
Proof.
  revert x. induction rest as [|y rest IH]; intros x Hall.
  - simpl. apply split_single. by inversion Hall.
  - rewrite Array_join_cons. inversion Hall as [|? ? Hx Hrest]; subst.
    unfold LF at 1. rewrite append_cons, append_nil_l.
    rewrite split_append_sep by done. by rewrite IH.
Qed.

(** ** The confirmation summary *)

Lemma singleLine_append (s t : string) :
  singleLine s → singleLine t → singleLine (s +:+ t).
Proof.
  unfold singleLine. intros Hs Ht. by rewrite mentions_append, Hs, Ht.
Qed.

Lemma singleLine_padEnd (s : string) (n : nat) :
  singleLine s → singleLine (padEnd s n).
Proof.
  intros Hs. apply singleLine_append; [done|]. apply mentions_spaces.
Qed.

Lemma singleLine_literal (s : string) : mentions char_LF s = false → singleLine s.
Proof. done. Qed.

Create HintDb single_line.
#[local] Hint Resolve singleLine_append singleLine_padEnd : single_line.
#[local] Hint Extern 1 (singleLine (String _ _)) =>
  apply singleLine_literal; reflexivity : single_line.

Lemma singleLine_inputLine (entry : string * JsValue) :
  singleLineEntry entry → singleLine (inputLine entry).
Proof.
  destruct entry as [k v]. intros [Hk Hv]. unfold inputLine.
  simpl in Hk, Hv. auto 6 with single_line.
Qed.

Lemma singleLine_displayLines (w r b : string) (m : JsObject JsValue) :
  singleLine w → singleLine r → singleLine b → Forall singleLineEntry m →
  Forall singleLine (displayLines w r b m).
Proof.
  intros Hw Hr Hb Hm. unfold displayLines.
  repeat apply Forall_cons_2; auto with single_line.
  - done.
  - unfold Object_entries. apply Forall_fmap.
    eapply Forall_impl; [exact Hm|]. apply singleLine_inputLine.
Qed.

(** C8, amended.  The summary begins with ["Running Workflow : "] and the
    workflow name; it is the newline-join of five header lines, the last
    being ["Inputs :"], and one line per input entry in iteration order.
    Each input line is two spaces, the key followed by enough spaces to
    reach fifteen characters (the padding is appended, and a longer key is
    left as it is), then [" : "] and the value.  When no component holds a
    line feed, these are exactly the lines of the text. *)
Theorem buildDisplayInfo_spec (w r b : string) (m : JsObject JsValue) :
  startsWith ("Running Workflow : " +:+ w) (buildDisplayInfo w r b m) = true
  ∧ buildDisplayInfo w r b m
    = Array_join LF
        (["Running Workflow : " +:+ w;
          "Repo             : " +:+ r;
          "Branch           : " +:+ b;
          "";
          "Inputs :"]
         ++ map inputLine (Object_entries m))
  ∧ (∀ (k : string) (v : JsValue),
       inputLine (k, v)
       = "  " +:+ (k +:+ spaces (15 - String.length k)) +:+ " : " +:+ ToString v
       ∧ String.length (padEnd k 15) = String.length k `max` 15)
  ∧ (singleLine w → singleLine r → singleLine b → Forall singleLineEntry m →
     split char_LF (buildDisplayInfo w r b m)
     = ["Running Workflow : " +:+ w;
        "Repo             : " +:+ r;
        "Branch           : " +:+ b;
        "";
        "Inputs :"]
       ++ map inputLine (Object_entries m)).
Proof.
  split; [|split; [|split]].
  - unfold buildDisplayInfo, displayLines. simpl app.
    rewrite Array_join_cons. apply startsWith_append.
  - done.
  - intros k v. split; [done|]. apply length_padEnd.
  - intros Hw Hr Hb Hm. unfold buildDisplayInfo.
    pose proof (singleLine_displayLines w r b m Hw Hr Hb Hm) as Hall.
    change (displayLines w r b m)
      with (("Running Workflow : " +:+ w)
              :: (["Repo             : " +:+ r; "Branch           : " +:+ b; ""; "Inputs :"]
                    ++ map inputLine (Object_entries m))) in *.
    by rewrite split_Array_join.
Qed.

(** On the test's inputs the summary has the seven expected lines. *)
Lemma buildDisplayInfo_spec_witness :
  split char_LF
    (buildDisplayInfo "Deploy" "owner/repo" "main"
       [("environment", JString "prod"); ("version", JString "3.0.0")])
  = ["Running Workflow : Deploy";
     "Repo             : owner/repo";
     "Branch           : main";
     "";
     "Inputs :";
     "  environment     : prod";
     "  version         : 3.0.0"].
Proof.
  apply (proj2 (proj2 (proj2
    (buildDisplayInfo_spec "Deploy" "owner/repo" "main"
       [("environment", JString "prod"); ("version", JString "3.0.0")])))).
  - reflexivity.
  - reflexivity.
  - reflexivity.
  - repeat constructor.
Defined.

(** C8 as stated fails: the line of an input is not its key padded on the
    left.  For the single input [version = "3.0.0"] the text holds the line
    ["  version         : 3.0.0"], and the left-padded rendering
    ["        version : 3.0.0"] occurs nowhere in it. *)
Lemma buildDisplayInfo_not_left_padded :
  drop 5 (split char_LF
            (buildDisplayInfo "Deploy" "owner/repo" "main" [("version", JString "3.0.0")]))
    = ["  version         : 3.0.0"]
  ∧ map leftPaddedLine [("version", JString "3.0.0")] = ["        version : 3.0.0"]
  ∧ drop 5 (split char_LF
              (buildDisplayInfo "Deploy" "owner/repo" "main" [("version", JString "3.0.0")]))
    ≠ map leftPaddedLine [("version", JString "3.0.0")]
  ∧ includes
      (buildDisplayInfo "Deploy" "owner/repo" "main" [("version", JString "3.0.0")])
      (leftPaddedLine ("version", JString "3.0.0")) = false.
Proof.
  split; [reflexivity|]. split; [reflexivity|]. split; [|reflexivity].
  vm_compute. discriminate.
Qed.

(** ** The summary shows what is dispatched *)

Lemma lookup_fieldFlags (entries : list (string * JsValue)) (i : nat) :
  concat (map fieldFlag entries) !! (2 * i) = (λ _, "-f") <$> entries !! i
  ∧ concat (map fieldFlag entries) !! (2 * i + 1)
    = (λ e, e.1 +:+ "=" +:+ ToString e.2) <$> entries !! i.
Proof.
  revert i. induction entries as [|e entries IH]; intros i; [done|].
  destruct i as [|i]; [done|].
  replace (2 * S i) with (S (S (2 * i))) by lia.
  simpl. apply IH.
Qed.

Lemma length_fieldFlags (entries : list (string * JsValue)) :
  length (concat (map fieldFlag entries)) = 2 * length entries.
Proof.
  induction entries as [|e entries IH]; [done|].
  simpl in *. rewrite IH. lia.
Qed.

(** C10. The input lines of the summary and the [-f] elements of the run
    arguments are built from the same entries in the same order: after the
    seven fixed arguments come the [-f key=value] pairs of the entries, after
    the five header lines come the lines of the same entries, and at every
    position [i] the pair and the line carry the key and the value of the
    [i]-th entry, or are both missing. *)
Theorem display_keys_are_dispatch_keys (w r b : string) (m : JsObject JsValue) :
  buildDisplayInfo w r b m = Array_join LF (displayLines w r b m)
  ∧ drop 7 (buildWorkflowRunArgs w r b m)
    = concat (map (λ e, ["-f"; e.1 +:+ "=" +:+ ToString e.2]) (Object_entries m))
  ∧ drop 5 (displayLines w r b m)
    = map (λ e, "  " +:+ padEnd e.1 15 +:+ " : " +:+ ToString e.2) (Object_entries m)
  ∧ length (buildWorkflowRunArgs w r b m) = 7 + 2 * length (Object_entries m)
  ∧ length (displayLines w r b m) = 5 + length (Object_entries m)
  ∧ ∀ i : nat,
      buildWorkflowRunArgs w r b m !! (7 + 2 * i)
        = (λ _, "-f") <$> Object_entries m !! i
      ∧ buildWorkflowRunArgs w r b m !! (7 + 2 * i + 1)
        = (λ e, e.1 +:+ "=" +:+ ToString e.2) <$> Object_entries m !! i
      ∧ displayLines w r b m !! (5 + i)
        = (λ e, "  " +:+ padEnd e.1 15 +:+ " : " +:+ ToString e.2) <$> Object_entries m !! i.
Proof.
  assert (Hargs : buildWorkflowRunArgs w r b m
                  = ["workflow"; "run"; w; "-R"; r; "--ref"; b]
                    ++ concat (map fieldFlag (Object_entries m))).
  { unfold buildWorkflowRunArgs. by rewrite buildWorkflowRunArgs_loop. }
  assert (Hline : ∀ e, inputLine e = "  " +:+ padEnd e.1 15 +:+ " : " +:+ ToString e.2).
  { by intros [k v]. }
  split; [done|]. split; [by rewrite Hargs|]. split; [|split; [|split]].
  - unfold displayLines. simpl. apply map_ext, Hline.
  - rewrite Hargs, length_app.
    rewrite length_fieldFlags. simpl. lia.
  - unfold displayLines. rewrite length_app, length_map. done.
  - intros i. rewrite Hargs.
    destruct (lookup_fieldFlags (Object_entries m) i) as [Hflag Hkv].
    split; [|split].
    + exact Hflag.
    + replace (7 + 2 * i + 1) with (7 + (2 * i + 1)) by lia. exact Hkv.
    + unfold displayLines. simpl. rewrite list_lookup_fmap.
      destruct (Object_entries m !! i) as [e|]; simpl; [|done]. by rewrite Hline.
Qed.

(** ** The input schema *)

Lemma toWorkflowInput_fields (name : string) (input : WorkflowDispatchInput) :
  let spec := toWorkflowInput (name, input) in
  wi_name spec = name
  ∧ wi_type spec = wdi_type input
  ∧ wi_default spec
    = match wdi_default input with
      | JUndefined | JNull => ""
      | declared => ToString declared
      end
  ∧ wi_options spec
    = (if decide (wdi_type input = "choice") then wdi_options input else None)
  ∧ wi_required spec = wdi_required input.
Proof.
  simpl. repeat split.
  - by destruct (wdi_default input).
  - unfold isChoiceInput. case_decide as Hty.
    + by rewrite Hty.
    + by apply String.eqb_neq in Hty as ->.
Qed.

Example toWorkflowInput_boolean_default :
  toWorkflowInput ("debug", mkWorkflowDispatchInput "boolean" (JBoolean false) None false)
  = mkWorkflowInput "debug" "boolean" "false" None false.
Proof. reflexivity. Qed.

(** C2, amended.  When [gh workflow view] answers, its output parses and
    the parsed workflow has a dispatch trigger to read the inputs from,
    [getWorkflowInputs] resolves, without touching the world, to one
    [WorkflowInput] per entry of the trigger's input map, in the same order
    (so none is dropped, whatever its type, and an empty map gives the empty
    list, as does a trigger without an [inputs] key).  Each carries the
    entry's name, its type and its required flag unchanged; its default is
    the empty string when the declaration has none (undefined or null) and
    the string form of the declared value otherwise; its options are the
    declared options when the type is ["choice"] (absent when the
    declaration has none) and absent for every other type. *)
Theorem getWorkflowInputs_spec `{!YamlParse WorkflowDispatchParsed}
    (workflowName repo branch stdout : string)
    (workflow : WorkflowDispatchParsed)
    (inputs : option (JsObject WorkflowDispatchInput)) (w : World) :
  gh w ["workflow"; "view"; workflowName; "-R"; repo; "--ref"; branch; "--yaml"]
    = Some stdout →
  yaml_parse stdout = Some workflow →
  on_workflow_dispatch (wdp_on workflow) = mkWorkflowDispatch inputs →
  ∃ result : list WorkflowInput,
    getWorkflowInputs workflowName repo branch w = (Resolved result, w)
    ∧ length result = length (default [] inputs)
    ∧ (default [] inputs = [] → result = [])
    ∧ ∀ (i : nat) (name : string) (input : WorkflowDispatchInput),
        default [] inputs !! i = Some (name, input) →
        ∃ spec : WorkflowInput,
          result !! i = Some spec
          ∧ wi_name spec = name
          ∧ wi_type spec = wdi_type input
          ∧ wi_default spec
            = match wdi_default input with
              | JUndefined | JNull => ""
              | declared => ToString declared
              end
          ∧ (wdi_type input = "choice" → wi_options spec = wdi_options input)
          ∧ (wdi_type input ≠ "choice" → wi_options spec = None)
          ∧ wi_required spec = wdi_required input.
Proof.
  intros Hgh Hparse Htrigger.
  exists (map toWorkflowInput (default [] inputs)).
  split; [|split; [|split]].
  - unfold getWorkflowInputs, await, execa, parseYaml.
    rewrite Hgh, Hparse. simpl. by rewrite Htrigger.
  - by rewrite length_map.
  - by intros ->.
  - intros i name input Hi. exists (toWorkflowInput (name, input)).
    split; [by rewrite list_lookup_fmap, Hi|].
    destruct (toWorkflowInput_fields name input) as (Hn & Ht & Hd & Ho & Hr).
    repeat split; try done.
    + intros Hty. rewrite Ho. by rewrite decide_True.
    + intros Hty. rewrite Ho. by rewrite decide_False.
Qed.

(** The Deploy workflow of the tests yields its two inputs. *)
Lemma getWorkflowInputs_spec_witness :
  ∃ result : list WorkflowInput,
    @getWorkflowInputs Fixture.parseWorkflow
      "Deploy" "owner/repo" "main" (Fixture.world Fixture.configYaml)
    = (Resolved result, Fixture.world Fixture.configYaml)
    ∧ result !! 0 = Some (mkWorkflowInput "environment" "choice" "dev"
                            (Some ["dev"; "staging"; "prod"]) true)
    ∧ result !! 1 = Some (mkWorkflowInput "version" "string" "1.0.0" None false).
Proof.
  destruct (@getWorkflowInputs_spec Fixture.parseWorkflow
              "Deploy" "owner/repo" "main" Fixture.deployYaml Fixture.deploy
              (Some [("environment",
                      mkWorkflowDispatchInput "choice" (JString "dev")
                        (Some ["dev"; "staging"; "prod"]) true);
                     ("version",
                      mkWorkflowDispatchInput "string" (JString "1.0.0") None false)])
              (Fixture.world Fixture.configYaml) eq_refl eq_refl eq_refl)
    as (result & Hrun & _).
  exists result. split; [exact Hrun|].
  vm_compute in Hrun. injection Hrun as <-. split; reflexivity.
Defined.

(** C2 as stated fails: for an input declared [choice] without an [options]
    key the projected specification has type ["choice"] and no options. *)
Lemma getWorkflowInputs_choice_without_options :
  @getWorkflowInputs Fixture.parseWorkflow
    "Pick" "owner/repo" "main" (Fixture.world Fixture.configYaml)
  = (Resolved [mkWorkflowInput "target" "choice" "" None true],
     Fixture.world Fixture.configYaml)
  ∧ ¬ (∀ spec : WorkflowInput,
         spec ∈ [mkWorkflowInput "target" "choice" "" None true] →
         (is_Some (wi_options spec) ↔ wi_type spec = "choice")).
Proof.
  split; [reflexivity|].
  intros Hclaim.
  destruct (Hclaim (mkWorkflowInput "target" "choice" "" None true)) as [_ Hopts].
  { apply list_elem_of_singleton. reflexivity. }
  destruct (Hopts eq_refl) as [opts Hsome]. discriminate Hsome.
Qed.

(** ** The prompt group *)

(** One [case] label of a [switch] on a string: when the label matches, the
    equation settles the goal; otherwise the next label is tried. *)
Ltac switch_case scrutinee label :=
  let E := fresh "Ecase" in
  destruct (String.eqb scrutinee label) eqn:E;
  [apply String.eqb_eq in E; tauto|].

Lemma isTextType_true (type : string) :
  isTextType type = true ↔ type ∈ ["string"; "number"; "environment"].
Proof.
  unfold isTextType. rewrite !orb_true_iff, !String.eqb_eq.
  rewrite !elem_of_cons, elem_of_nil. tauto.
Qed.

Lemma promptFor_text (input : WorkflowInput) :
  wi_type input ∈ ["string"; "number"; "environment"] →
  promptFor input
  = Some (text ("Input " +:+ wi_name input)
               ("Required? " +:+ Boolean_toString (wi_required input))
               (wi_default input)).
Proof.
  intros Hty%isTextType_true. unfold promptFor. by rewrite Hty.
Qed.

Lemma promptFor_boolean (input : WorkflowInput) :
  wi_type input = "boolean" →
  promptFor input
  = Some (select ("Input " +:+ wi_name input)
                 [mkSelectOption "true" "True"; mkSelectOption "false" "False"]
                 (wi_default input)).
Proof. intros Hty. unfold promptFor. by rewrite Hty. Qed.

Lemma promptFor_choice (input : WorkflowInput) :
  wi_type input = "choice" →
  promptFor input
  = Some (select ("Input " +:+ wi_name input)
                 (map (λ opt, mkSelectOption opt opt) (default [] (wi_options input)))
                 (wi_default input)).
Proof. intros Hty. unfold promptFor. by rewrite Hty. Qed.

Lemma promptFor_recognized (input : WorkflowInput) :
  is_Some (promptFor input) ↔ wi_type input ∈ recognizedTypes.
Proof.
  unfold recognizedTypes. rewrite !elem_of_cons, elem_of_nil. split.
  - unfold promptFor, isTextType.
    switch_case (wi_type input) "string".
    switch_case (wi_type input) "number".
    switch_case (wi_type input) "environment".
    switch_case (wi_type input) "boolean".
    switch_case (wi_type input) "choice".
    simpl. by intros [? ?].
  - intros [H|[H|[H|[H|[H|[]]]]]].
    + rewrite promptFor_text; [done|]. apply isTextType_true. by rewrite H.
    + rewrite promptFor_text; [done|]. apply isTextType_true. by rewrite H.
    + rewrite promptFor_text; [done|]. apply isTextType_true. by rewrite H.
    + by rewrite promptFor_boolean.
    + by rewrite promptFor_choice.
Qed.

Lemma promptFor_unrecognized (input : WorkflowInput) :
  promptFor input = None ↔ wi_type input ∉ recognizedTypes.
Proof.
  rewrite <- promptFor_recognized, eq_None_not_Some. done.
Qed.

Lemma buildInputPrompts_snoc (inputs : list WorkflowInput) (input : WorkflowInput) :
  buildInputPrompts (inputs ++ [input])
  = buildInputPrompts_step (buildInputPrompts inputs) input.
Proof. unfold buildInputPrompts. by rewrite fold_left_app. Qed.

(** Every key of the record is the name of an input with a recognized type. *)
Lemma createdGroup_keys (inputs : list WorkflowInput) (name : string) :
  is_Some (createdGroup (buildInputPrompts inputs) !! name) →
  ∃ input, input ∈ inputs ∧ wi_name input = name ∧ wi_type input ∈ recognizedTypes.
Proof.
  induction inputs as [|input inputs IH] using rev_ind.
  - unfold buildInputPrompts. simpl. rewrite lookup_empty. by intros [? ?].
  - rewrite buildInputPrompts_snoc. unfold buildInputPrompts_step.
    destruct (promptFor input) as [prompt|] eqn:Hp; simpl.
    + destruct (decide (wi_name input = name)) as [Heq|Hne].
      * intros _. exists input.
        split; [apply elem_of_app; right; by apply list_elem_of_singleton|].
        split; [done|].
        apply promptFor_recognized. by rewrite Hp.
      * rewrite lookup_insert_ne by done. intros Hin.
        destruct (IH Hin) as (i & Hi & Hn & Ht). exists i.
        split; [apply elem_of_app; by left|done].
    + intros Hin. destruct (IH Hin) as (i & Hi & Hn & Ht). exists i.
      split; [apply elem_of_app; by left|done].
Qed.

(** With distinct names, the record holds under each input's name what the
    [switch] made of that input. *)
Lemma createdGroup_lookup (inputs : list WorkflowInput) (input : WorkflowInput) :
  NoDup (map wi_name inputs) → input ∈ inputs →
  createdGroup (buildInputPrompts inputs) !! wi_name input = promptFor input.
Proof.
  induction inputs as [|last inputs IH] using rev_ind.
  { intros _ Hin. by apply elem_of_nil in Hin. }
  rewrite map_app. simpl. intros Hnd Hin.
  apply NoDup_app in Hnd as (Hnd & Hfresh & _).
  assert (Hlast : wi_name last ∉ map wi_name inputs).
  { intros Hl. apply (Hfresh _ Hl). by apply list_elem_of_singleton. }
  assert (Hnone : createdGroup (buildInputPrompts inputs) !! wi_name last = None).
  { apply eq_None_not_Some. intros Hsome.
    destruct (createdGroup_keys _ _ Hsome) as (i & Hi & Hn & _).
    apply Hlast. rewrite <- Hn. by apply list_elem_of_fmap_2. }
  rewrite buildInputPrompts_snoc. unfold buildInputPrompts_step.
  apply elem_of_app in Hin as [Hin|Hin].
  - assert (wi_name last ≠ wi_name input).
    { intros Heq. apply Hlast. rewrite Heq. by apply list_elem_of_fmap_2. }
    destruct (promptFor last); simpl.
    + rewrite lookup_insert_ne by done. by apply IH.
    + by apply IH.
  - apply list_elem_of_singleton in Hin as ->.
    destruct (promptFor last) eqn:Hp; simpl.
    + by rewrite lookup_insert_eq.
    + done.
Qed.

Lemma createdGroup_size (inputs : list WorkflowInput) :
  NoDup (map wi_name inputs) →
  size (createdGroup (buildInputPrompts inputs))
  = length (filter (λ i, wi_type i ∈ recognizedTypes) inputs).
Proof.
  induction inputs as [|last inputs IH] using rev_ind; [done|].
  rewrite map_app. simpl. intros Hnd.
  apply NoDup_app in Hnd as (Hnd & Hfresh & _).
  assert (Hnone : createdGroup (buildInputPrompts inputs) !! wi_name last = None).
  { apply eq_None_not_Some. intros Hsome.
    destruct (createdGroup_keys _ _ Hsome) as (i & Hi & Hn & _).
    apply (Hfresh (wi_name last)); [|by apply list_elem_of_singleton].
    rewrite <- Hn. by apply list_elem_of_fmap_2. }
  rewrite buildInputPrompts_snoc, filter_app, length_app, <- IH by done.
  unfold buildInputPrompts_step.
  destruct (promptFor last) as [prompt|] eqn:Hp; simpl.
  - rewrite map_size_insert_None by done.
    rewrite filter_cons, decide_True; [simpl; lia|].
    apply promptFor_recognized. by rewrite Hp.
  - rewrite filter_cons, decide_False; [simpl; lia|].
    by apply promptFor_unrecognized.
Qed.

(** One diagnostic per input whose type the [switch] does not know. *)
Lemma errorLog_count (inputs : list WorkflowInput) :
  errorLog (buildInputPrompts inputs)
  = replicate (length (filter (λ i, wi_type i ∉ recognizedTypes) inputs))
              "Invalid Input Type !".
Proof.
  induction inputs as [|last inputs IH] using rev_ind; [done|].
  rewrite buildInputPrompts_snoc, filter_app, length_app.
  unfold buildInputPrompts_step.
  destruct (promptFor last) as [prompt|] eqn:Hp; simpl.
  - rewrite filter_cons, decide_False; [simpl; by rewrite Nat.add_0_r|].
    intros Hun. apply promptFor_unrecognized in Hun. congruence.
  - rewrite filter_cons, decide_True by by apply promptFor_unrecognized.
    simpl. rewrite IH, Nat.add_1_r. by rewrite replicate_S_end.
Qed.

(** C6, amended.  For a list of inputs with pairwise distinct names the
    returned record holds, under the name of each input of type ["string"],
    ["number"] or ["environment"], a text prompt pre-filled with the default;
    under the name of each ["boolean"] input a select over ["true"]/["True"]
    and ["false"]/["False"] pre-selected to the default; under the name of
    each ["choice"] input a select whose options are the input's options,
    each with equal value and label; and nothing under the name of an input
    of any other type.  The record has no other keys, one entry per input of
    a recognized type, and one diagnostic is logged per input of another
    type. *)
Theorem buildInputPrompts_spec (inputs : list WorkflowInput) :
  NoDup (map wi_name inputs) →
  (∀ input : WorkflowInput, input ∈ inputs →
     (wi_type input ∈ ["string"; "number"; "environment"] →
      createdGroup (buildInputPrompts inputs) !! wi_name input
      = Some (text ("Input " +:+ wi_name input)
                   ("Required? " +:+ Boolean_toString (wi_required input))
                   (wi_default input)))
     ∧ (wi_type input = "boolean" →
        createdGroup (buildInputPrompts inputs) !! wi_name input
        = Some (select ("Input " +:+ wi_name input)
                       [mkSelectOption "true" "True"; mkSelectOption "false" "False"]
                       (wi_default input)))
     ∧ (wi_type input = "choice" →
        createdGroup (buildInputPrompts inputs) !! wi_name input
        = Some (select ("Input " +:+ wi_name input)
                       (map (λ opt, mkSelectOption opt opt) (default [] (wi_options input)))
                       (wi_default input)))
     ∧ (wi_type input ∉ ["string"; "number"; "environment"; "boolean"; "choice"] →
        createdGroup (buildInputPrompts inputs) !! wi_name input = None))
  ∧ (∀ name : string,
       is_Some (createdGroup (buildInputPrompts inputs) !! name) →
       ∃ input, input ∈ inputs ∧ wi_name input = name
                ∧ wi_type input ∈ ["string"; "number"; "environment"; "boolean"; "choice"])
  ∧ size (createdGroup (buildInputPrompts inputs))
    = length (filter (λ i, wi_type i ∈ ["string"; "number"; "environment"; "boolean"; "choice"])
                     inputs)
  ∧ errorLog (buildInputPrompts inputs)
    = replicate
        (length (filter (λ i, wi_type i ∉ ["string"; "number"; "environment"; "boolean"; "choice"])
                        inputs))
        "Invalid Input Type !".
Proof.
  intros Hnd. split; [|split; [|split]].
  - intros input Hin.
    rewrite (createdGroup_lookup inputs input Hnd Hin).
    split; [apply promptFor_text|]. split; [apply promptFor_boolean|].
    split; [apply promptFor_choice|]. apply promptFor_unrecognized.
  - apply createdGroup_keys.
  - by apply createdGroup_size.
  - apply errorLog_count.
Qed.

(** The inputs of the prompt tests, with one of an unknown type added. *)
Lemma buildInputPrompts_spec_witness :
  createdGroup
    (buildInputPrompts
       [mkWorkflowInput "version" "string" "1.0.0" None true;
        mkWorkflowInput "debug" "boolean" "false" None false;
        mkWorkflowInput "matrix" "json" "" None false])
    !! "debug"
  = Some (select "Input debug"
                 [mkSelectOption "true" "True"; mkSelectOption "false" "False"]
                 "false").
Proof.
  refine (proj1 (proj2 (proj1
    (buildInputPrompts_spec
       [mkWorkflowInput "version" "string" "1.0.0" None true;
        mkWorkflowInput "debug" "boolean" "false" None false;
        mkWorkflowInput "matrix" "json" "" None false] _)
    (mkWorkflowInput "debug" "boolean" "false" None false) _)) eq_refl).
  - apply (bool_decide_unpack _). vm_compute. exact I.
  - apply list_elem_of_In. simpl. tauto.
Defined.

(** C6 as stated fails on lists that repeat a name.  Two recognized inputs
    called [env] leave one prompt, the later one, so the first has none of
    its own; and an input of unknown type called [env] finds an entry under
    its name, left there by its namesake. *)
Lemma buildInputPrompts_shared_name :
  size (createdGroup
          (buildInputPrompts
             [mkWorkflowInput "env" "string" "dev" None true;
              mkWorkflowInput "env" "boolean" "false" None false])) = 1
  ∧ createdGroup
      (buildInputPrompts
         [mkWorkflowInput "env" "string" "dev" None true;
          mkWorkflowInput "env" "boolean" "false" None false])
      !! "env"
    = Some (select "Input env"
                   [mkSelectOption "true" "True"; mkSelectOption "false" "False"]
                   "false")
  ∧ createdGroup
      (buildInputPrompts
         [mkWorkflowInput "env" "string" "dev" None true;
          mkWorkflowInput "env" "matrix" "" None false])
      !! "env"
    = Some (text "Input env" "Required? true" "dev")
  ∧ errorLog
      (buildInputPrompts
         [mkWorkflowInput "env" "string" "dev" None true;
          mkWorkflowInput "env" "matrix" "" None false])
    = ["Invalid Input Type !"].
Proof. repeat split; vm_compute; reflexivity. Qed.

(** ** Saving a bookmark *)

Section SaveBookmark.
Context `{!YamlParse RepoConfig, !YamlStringify RepoConfig}.

(** Once the file is read and parsed, what is left is the lookup. *)
Lemma saveBookmark_parsed (w : World) (configPath repoName configText : string)
    (bookmark : Bookmark) (config : RepoConfig) :
  files w !! configPath = Some configText →
  yaml_parse configText = Some config →
  saveBookmark configPath repoName bookmark w
  = match list_find (λ r, repo_name r = repoName) (repos config) with
    | None =>
        (Rejected (Error ("Repository " +:+ repoName +:+ " not found in config")), w)
    | Some (i, repo) =>
        writeFile configPath
          (stringifyYaml (mkRepoConfig (<[i := pushBookmark repo bookmark]> (repos config)))) w
    end.
Proof.
  intros Hfile Hparse.
  unfold saveBookmark, await, readFile, parseYaml.
  rewrite Hfile, Hparse. simpl.
  by destruct (list_find _ _) as [[i repo]|].
Qed.

Lemma list_find_named (repoName : string) (rs : list Repo) :
  repoName ∈ map repo_name rs →
  ∃ (i : nat) (repo : Repo),
    list_find (λ r, repo_name r = repoName) rs = Some (i, repo).
Proof.
  intros (repo & Hname & Hin)%list_elem_of_fmap.
  destruct (list_find (λ r, repo_name r = repoName) rs) as [[i r]|] eqn:Hfind; [eauto|].
  apply list_find_None in Hfind.
  rewrite Forall_forall in Hfind. by destruct (Hfind repo Hin).
Qed.

Lemma list_find_unnamed (repoName : string) (rs : list Repo) :
  repoName ∉ map repo_name rs →
  list_find (λ r, repo_name r = repoName) rs = None.
Proof.
  intros Hnot. apply list_find_None, Forall_forall.
  intros repo Hin Hname. apply Hnot. rewrite <- Hname.
  by apply list_elem_of_fmap_2.
Qed.

Lemma pushBookmark_fields (repo : Repo) (bookmark : Bookmark) :
  repo_name (pushBookmark repo bookmark) = repo_name repo
  ∧ repo_branches (pushBookmark repo bookmark) = repo_branches repo
  ∧ repo_bookmarks (pushBookmark repo bookmark)
    = Some (default [] (repo_bookmarks repo) ++ [bookmark]).
Proof.
  unfold pushBookmark.
  destruct (repo_bookmarks repo) eqn:E; simpl; rewrite ?E; done.
Qed.

(** A rejected save leaves the world as it found it. *)
Lemma saveBookmark_rejected_no_write (w w' : World) (configPath repoName : string)
    (bookmark : Bookmark) (e : JsError) :
  saveBookmark configPath repoName bookmark w = (Rejected e, w') → w' = w.
Proof.
  unfold saveBookmark, await, readFile, parseYaml, resolve, reject, writeFile.
  destruct (files w !! configPath) as [configText|]; [|congruence].
  destruct (yaml_parse configText) as [config|]; [|congruence].
  destruct (list_find _ _) as [[i repo]|]; congruence.
Qed.
End SaveBookmark.

(** C4. When the file parses to a configuration none of whose repositories
    has the given name, [saveBookmark] rejects with the error
    ["Repository <name> not found in config"] and the world is unchanged:
    the files are as they were and [writeFile] was not called. *)
Theorem saveBookmark_repo_not_found
    `{!YamlParse RepoConfig, !YamlStringify RepoConfig}
    (w : World) (configPath repoName configText : string)
    (bookmark : Bookmark) (config : RepoConfig) :
  files w !! configPath = Some configText →
  yaml_parse configText = Some config →
  repoName ∉ map repo_name (repos config) →
  saveBookmark configPath repoName bookmark w
  = (Rejected (Error ("Repository " +:+ repoName +:+ " not found in config")), w)
  ∧ includes ("Repository " +:+ repoName +:+ " not found in config") repoName = true.
Proof.
  intros Hfile Hparse Hnot. split.
  - rewrite (saveBookmark_parsed w configPath repoName configText bookmark config)
      by done.
    by rewrite list_find_unnamed.
  - apply includes_append_r, includes_startsWith, startsWith_append.
Qed.

(** The test's missing repository. *)
Lemma saveBookmark_repo_not_found_witness :
  @saveBookmark Fixture.parseConfig Fixture.printConfig
    "./config.yml" "owner/nonexistent" (mkBookmark "Test" "test.yml" "main" [])
    (Fixture.world Fixture.configYaml)
  = (Rejected (Error "Repository owner/nonexistent not found in config"),
     Fixture.world Fixture.configYaml).
Proof.
  refine (proj1 (@saveBookmark_repo_not_found Fixture.parseConfig Fixture.printConfig
    (Fixture.world Fixture.configYaml) "./config.yml" "owner/nonexistent"
    Fixture.configYaml (mkBookmark "Test" "test.yml" "main" []) Fixture.config _ _ _)).
  - vm_compute. reflexivity.
  - vm_compute. reflexivity.
  - apply (bool_decide_unpack _). vm_compute. exact I.
Defined.




(** C9. On success the configuration that is written differs from the one
    that was read in a single place: the first repository of the given name
    keeps its name and its branches and has the new bookmark at the end of
    its bookmark list; every other repository is the one that was parsed, at
    the same position.  No file other than the configuration is touched. *)
Theorem saveBookmark_frame
    `{!YamlParse RepoConfig, !YamlStringify RepoConfig}
    (w : World) (configPath repoName configText : string)
    (bookmark : Bookmark) (config : RepoConfig) :
  files w !! configPath = Some configText →
  yaml_parse configText = Some config →
  repoName ∈ map repo_name (repos config) →
  ∃ (i : nat) (repo : Repo) (written : RepoConfig) (w' : World),
    saveBookmark configPath repoName bookmark w = (Resolved (), w')
    ∧ files w' !! configPath = Some (stringifyYaml written)
    ∧ writeFileCalls w' = writeFileCalls w ++ [(configPath, stringifyYaml written)]
    ∧ (∀ other : string, other ≠ configPath → files w' !! other = files w !! other)
    ∧ repos config !! i = Some repo
    ∧ repo_name repo = repoName
    ∧ (∀ (j : nat) (r : Repo), repos config !! j = Some r → j < i → repo_name r ≠ repoName)
    ∧ length (repos written) = length (repos config)
    ∧ (∀ j : nat, j ≠ i → repos written !! j = repos config !! j)
    ∧ repos written !! i
      = Some (mkRepo (repo_name repo) (repo_branches repo)
                     (Some (default [] (repo_bookmarks repo) ++ [bookmark]))).
Proof.
  intros Hfile Hparse Hin.
  destruct (list_find_named repoName (repos config) Hin) as (i & repo & Hfind).
  pose proof Hfind as (Hi & Hname & Hfirst)%list_find_Some.
  exists i, repo,
    (mkRepoConfig (<[i := pushBookmark repo bookmark]> (repos config))),
    (mkWorld
       (<[configPath :=
            stringifyYaml (mkRepoConfig (<[i := pushBookmark repo bookmark]> (repos config)))]>
          (files w))
       (gh w)
       (writeFileCalls w
          ++ [(configPath,
               stringifyYaml (mkRepoConfig (<[i := pushBookmark repo bookmark]> (repos config))))])).
  split; [|split; [|split; [|split; [|split; [|split; [|split; [|split; [|split]]]]]]]].
  - rewrite (saveBookmark_parsed w configPath repoName configText bookmark config)
      by done.
    by rewrite Hfind.
  - simpl. apply lookup_insert_eq.
  - done.
  - intros other Hother. simpl. by rewrite lookup_insert_ne.
  - done.
  - done.
  - done.
  - simpl. apply length_insert.
  - intros j Hj. simpl. by rewrite list_lookup_insert_ne.
  - simpl. rewrite list_lookup_insert_eq by by eapply lookup_lt_Some.
    f_equal. unfold pushBookmark.
    destruct (repo_bookmarks repo) eqn:E; simpl; rewrite ?E; done.
Qed.

(** Saving the first bookmark of a repository that has none. *)
Lemma saveBookmark_frame_witness :
  ∃ (i : nat) (repo : Repo) (written : RepoConfig) (w' : World),
    @saveBookmark Fixture.parseConfig Fixture.printConfig
      "./config.yml" "owner/repo1" Fixture.newBookmark
      (Fixture.world Fixture.configYaml)
    = (Resolved (), w')
    ∧ repos Fixture.config !! i = Some repo
    ∧ length (repos written) = length (repos Fixture.config)
    ∧ repos written !! i
      = Some (mkRepo (repo_name repo) (repo_branches repo)
                     (Some (default [] (repo_bookmarks repo) ++ [Fixture.newBookmark]))).
Proof.
  destruct (@saveBookmark_frame Fixture.parseConfig Fixture.printConfig
              (Fixture.world Fixture.configYaml) "./config.yml" "owner/repo1"
              Fixture.configYaml Fixture.newBookmark Fixture.config)
    as (i & repo & written & w' & Hrun & _ & _ & _ & Hi & _ & _ & Hlen & _ & Hsaved).
  - vm_compute. reflexivity.
  - vm_compute. reflexivity.
  - apply list_elem_of_In. simpl. tauto.
  - exists i, repo, written, w'. repeat split; assumption.
Defined.

(** The texts the stand-in serializer writes in the two bookmark tests. *)
Example saveBookmark_first_bookmark_text :
  files (@saveBookmark Fixture.parseConfig Fixture.printConfig
           "./config.yml" "owner/repo1"
           (mkBookmark "First Bookmark" "test.yml" "main" [("key", "value")])
           (Fixture.world Fixture.configYaml)).2
    !! "./config.yml"
  = Some (Fixture.text_of
            ["repos:"; "  - name: owner/repo1"; "    branches:"; "      - main";
             "    bookmarks:"; "      - nickname: First Bookmark";
             "        workflow: test.yml"; "        branch: main";
             "        inputs:"; "          key: value"]).
Proof. vm_compute. reflexivity. Qed.

Example saveBookmark_second_bookmark_text :
  files (@saveBookmark Fixture.parseConfig Fixture.printConfig
           "./config.yml" "owner/repo1" Fixture.newBookmark
           (Fixture.world Fixture.bookmarkedYaml)).2
    !! "./config.yml"
  = Some (Fixture.text_of
            ["repos:"; "  - name: owner/repo1"; "    branches:"; "      - main";
             "    bookmarks:"; "      - nickname: Existing Bookmark";
             "        workflow: old.yml"; "        branch: main";
             "        inputs:"; "          key: value";
             "      - nickname: New Bookmark";
             "        workflow: new.yml"; "        branch: dev";
             "        inputs:"; "          env: prod"]).
Proof. vm_compute. reflexivity. Qed.

(** Saving and loading again, on the stand-in library. *)
Example saveBookmark_then_loadConfig :
  (@loadConfig Fixture.parseConfig "./config.yml"
     (@saveBookmark Fixture.parseConfig Fixture.printConfig
        "./config.yml" "owner/repo1" Fixture.newBookmark
        (Fixture.world Fixture.bookmarkedYaml)).2).1
  = Resolved Fixture.rebookmarked.
Proof. vm_compute. reflexivity. Qed.

(** * Further properties *)

(** ** Looking a repository up by name *)

Lemma getRepoList_names (config : RepoConfig) (repoName : string) :
  repoName ∈ getRepoList config ↔ repoName ∈ map repo_name (repos config).
Proof. unfold getRepoList. by rewrite Array_sort_perm. Qed.

Lemma Array_find_first {A : Type} (P : A → Prop) `{!∀ x, Decision (P x)}
    (arr : list A) (i : nat) (x : A) :
  arr !! i = Some x → P x →
  (∀ (j : nat) (y : A), arr !! j = Some y → j < i → ¬ P y) →
  Array_find P arr = Some x.
Proof.
  intros Hi HP Hfirst. unfold Array_find.
  assert (list_find P arr = Some (i, x)) as -> by by apply list_find_Some.
  done.
Qed.

Lemma Array_find_absent {A : Type} (P : A → Prop) `{!∀ x, Decision (P x)}
    (arr : list A) :
  (∀ x, x ∈ arr → ¬ P x) → Array_find P arr = None.
Proof.
  intros Hnone. unfold Array_find.
  assert (list_find P arr = None) as ->; [|done].
  by apply list_find_None, Forall_forall.
Qed.

Lemma Array_find_present {A : Type} (P : A → Prop) `{!∀ x, Decision (P x)}
    (arr : list A) (x : A) :
  Array_find P arr = Some x → x ∈ arr ∧ P x.
Proof.
  unfold Array_find.
  destruct (list_find P arr) as [[i y]|] eqn:Hfind; [|done].
  intros [= <-]. apply list_find_Some in Hfind as (Hi & HP & _).
  split; [by eapply list_elem_of_lookup_2|done].
Qed.

(** X1. [getBranchesForRepo] answers with the branches of the first
    repository of that name and with the empty list when no repository has
    it; every name [getRepoList] shows has such a repository. *)
Theorem getBranchesForRepo_spec (config : RepoConfig) (repoName : string) :
  (repoName ∉ getRepoList config → getBranchesForRepo config repoName = [])
  ∧ (∀ (i : nat) (repo : Repo),
       repos config !! i = Some repo →
       repo_name repo = repoName →
       (∀ (j : nat) (r : Repo), repos config !! j = Some r → j < i → repo_name r ≠ repoName) →
       getBranchesForRepo config repoName = repo_branches repo)
  ∧ (repoName ∈ getRepoList config →
     ∃ repo : Repo, repo ∈ repos config ∧ repo_name repo = repoName
                    ∧ getBranchesForRepo config repoName = repo_branches repo).
Proof.
  unfold getBranchesForRepo. split; [|split].
  - rewrite getRepoList_names. intros Hnot.
    rewrite Array_find_absent; [done|].
    intros r Hr Hname. apply Hnot. rewrite <- Hname. by apply list_elem_of_fmap_2.
  - intros i repo Hi Hname Hfirst.
    by rewrite (Array_find_first _ _ i repo).
  - rewrite getRepoList_names. intros Hin.
    destruct (list_find_named repoName (repos config) Hin) as (i & repo & Hfind).
    unfold Array_find. rewrite Hfind. simpl.
    apply list_find_Some in Hfind as (Hi & Hname & _).
    exists repo. split; [by eapply list_elem_of_lookup_2|done].
Qed.

(** Of two repositories called [owner/repo1] the first one answers. *)
Lemma getBranchesForRepo_spec_witness :
  getBranchesForRepo
    (mkRepoConfig [mkRepo "owner/repo1" ["main"; "dev"] None;
                   mkRepo "owner/repo1" ["legacy"] None])
    "owner/repo1"
  = ["main"; "dev"].
Proof.
  apply (proj1 (proj2 (getBranchesForRepo_spec
    (mkRepoConfig [mkRepo "owner/repo1" ["main"; "dev"] None;
                   mkRepo "owner/repo1" ["legacy"] None]) "owner/repo1"))
    0 (mkRepo "owner/repo1" ["main"; "dev"] None)).
  - reflexivity.
  - reflexivity.
  - intros j r _ Hj. lia.
Defined.

(** X2. [getBookmarksForRepo] answers with the bookmarks of the first
    repository of that name, and with the empty list when no repository has
    the name or when that repository has no [bookmarks] key. *)
Theorem getBookmarksForRepo_spec (config : RepoConfig) (repoName : string) :
  (repoName ∉ getRepoList config → getBookmarksForRepo config repoName = [])
  ∧ (∀ (i : nat) (repo : Repo),
       repos config !! i = Some repo →
       repo_name repo = repoName →
       (∀ (j : nat) (r : Repo), repos config !! j = Some r → j < i → repo_name r ≠ repoName) →
       (repo_bookmarks repo = None → getBookmarksForRepo config repoName = [])
       ∧ (∀ bookmarks : list Bookmark,
            repo_bookmarks repo = Some bookmarks →
            getBookmarksForRepo config repoName = bookmarks)).
Proof.
  unfold getBookmarksForRepo. split.
  - rewrite getRepoList_names. intros Hnot.
    rewrite Array_find_absent; [done|].
    intros r Hr Hname. apply Hnot. rewrite <- Hname. by apply list_elem_of_fmap_2.
  - intros i repo Hi Hname Hfirst.
    rewrite (Array_find_first _ _ i repo) by done.
    split; [by intros ->|]. by intros bookmarks ->.
Qed.

Lemma getBookmarksForRepo_spec_witness :
  getBookmarksForRepo Fixture.bookmarked "owner/repo1" = [Fixture.existingBookmark].
Proof.
  refine (proj2 (proj2 (getBookmarksForRepo_spec Fixture.bookmarked "owner/repo1")
    0 (mkRepo "owner/repo1" ["main"] (Some [Fixture.existingBookmark])) _ _ _)
    [Fixture.existingBookmark] _).
  - reflexivity.
  - reflexivity.
  - intros j r _ Hj. lia.
  - reflexivity.
Defined.

(** ** What a saved bookmark changes for the accessors *)

Section WithBookmark.
Context (config : RepoConfig) (repoName : string) (bookmark : Bookmark).

(** Replacing a repository by one of the same name moves no lookup by name. *)
Lemma list_find_renamed (m : string) (l : list Repo) (i : nat) (x y : Repo) :
  l !! i = Some x → repo_name y = repo_name x →
  list_find (λ r, repo_name r = m) (<[i := y]> l)
  = (λ found : nat * Repo, (found.1, if decide (found.1 = i) then y else found.2))
      <$> list_find (λ r, repo_name r = m) l.
Proof.
  intros Hi Hname.
  destruct (list_find (λ r, repo_name r = m) l) as [[j r]|] eqn:Hfind; simpl.
  - apply list_find_Some in Hfind as (Hj & Hr & Hfirst).
    apply list_find_Some. case_decide as Hji.
    + subst j. assert (r = x) as -> by congruence.
      split; [apply list_lookup_insert_eq; by eapply lookup_lt_Some|].
      split; [congruence|].
      intros k z Hk Hlt. rewrite list_lookup_insert_ne in Hk by lia. by eapply Hfirst.
    + split; [by rewrite list_lookup_insert_ne|]. split; [done|].
      intros k z Hk Hlt. destruct (decide (k = i)) as [->|Hki].
      * rewrite list_lookup_insert_eq in Hk by by eapply lookup_lt_Some.
        injection Hk as <-. rewrite Hname. by eapply Hfirst.
      * rewrite list_lookup_insert_ne in Hk by done. by eapply Hfirst.
  - apply list_find_None. apply list_find_None in Hfind.
    rewrite Forall_forall in Hfind |- *.
    intros z [k Hk]%list_elem_of_lookup_1. destruct (decide (k = i)) as [->|Hki].
    + rewrite list_lookup_insert_eq in Hk by by eapply lookup_lt_Some.
      injection Hk as <-. rewrite Hname. apply Hfind. by eapply list_elem_of_lookup_2.
    + rewrite list_lookup_insert_ne in Hk by done.
      apply Hfind. by eapply list_elem_of_lookup_2.
Qed.

Lemma withBookmark_names :
  map repo_name (repos (withBookmark config repoName bookmark))
  = map repo_name (repos config).
Proof.
  unfold withBookmark.
  destruct (list_find _ _) as [[i repo]|] eqn:Hfind; [|done]. simpl.
  apply list_find_Some in Hfind as (Hi & _ & _).
  rewrite list_fmap_insert.
  destruct (pushBookmark_fields repo bookmark) as (-> & _ & _).
  apply list_insert_id. by rewrite list_lookup_fmap, Hi.
Qed.

Lemma withBookmark_find (m : string) :
  list_find (λ r, repo_name r = m) (repos (withBookmark config repoName bookmark))
  = (λ found : nat * Repo,
       (found.1, if decide (m = repoName) then pushBookmark found.2 bookmark else found.2))
      <$> list_find (λ r, repo_name r = m) (repos config).
Proof.
  unfold withBookmark.
  destruct (list_find (λ r, repo_name r = repoName) (repos config))
    as [[i repo]|] eqn:Hfind; simpl.
  - pose proof Hfind as (Hi & Hname & Hfirst)%list_find_Some.
    assert (repo_name (pushBookmark repo bookmark) = repo_name repo) as Hsame
      by by destruct (pushBookmark_fields repo bookmark) as (-> & _ & _).
    rewrite (list_find_renamed m _ i repo _ Hi Hsame).
    destruct (list_find (λ r, repo_name r = m) (repos config))
      as [[j r]|] eqn:Hm; simpl; [|done].
    apply list_find_Some in Hm as (Hj & Hr & Hfirst').
    f_equal. f_equal. destruct (decide (j = i)) as [->|Hji].
    + assert (r = repo) as -> by congruence.
      rewrite decide_True by congruence. done.
    + destruct (decide (m = repoName)) as [->|Hmn]; [|done]. exfalso.
      destruct (Nat.lt_trichotomy j i) as [Hlt|[Heq|Hgt]].
      * by apply (Hfirst j r Hj Hlt).
      * done.
      * by apply (Hfirst' i repo Hi Hgt).
  - destruct (list_find (λ r, repo_name r = m) (repos config))
      as [[j r]|] eqn:Hm; simpl; [|done].
    case_decide as Hmn; [|done]. subst m. congruence.
Qed.
End WithBookmark.

Lemma getBookmarksForRepo_withBookmark (config : RepoConfig) (repoName m : string)
    (bookmark : Bookmark) :
  m ∈ map repo_name (repos config) →
  getBookmarksForRepo (withBookmark config repoName bookmark) m
  = getBookmarksForRepo config m ++ (if decide (m = repoName) then [bookmark] else []).
Proof.
  intros Hin. unfold getBookmarksForRepo, Array_find.
  rewrite withBookmark_find.
  destruct (list_find_named m (repos config) Hin) as (j & r & ->). simpl.
  case_decide; [|by rewrite app_nil_r].
  by destruct (pushBookmark_fields r bookmark) as (_ & _ & ->).
Qed.

Lemma getBookmarksForRepo_unnamed (config : RepoConfig) (m : string) :
  m ∉ map repo_name (repos config) → getBookmarksForRepo config m = [].
Proof.
  intros Hnot. unfold getBookmarksForRepo, Array_find.
  by rewrite list_find_unnamed.
Qed.

Lemma getBranchesForRepo_withBookmark (config : RepoConfig) (repoName m : string)
    (bookmark : Bookmark) :
  getBranchesForRepo (withBookmark config repoName bookmark) m
  = getBranchesForRepo config m.
Proof.
  unfold getBranchesForRepo, Array_find. rewrite withBookmark_find.
  destruct (list_find _ (repos config)) as [[j r]|]; simpl; [|done].
  case_decide; [|done].
  by destruct (pushBookmark_fields r bookmark) as (_ & -> & _).
Qed.

Lemma saveBookmark_writes `{!YamlParse RepoConfig, !YamlStringify RepoConfig}
    (w : World) (configPath repoName configText : string)
    (bookmark : Bookmark) (config : RepoConfig) :
  files w !! configPath = Some configText →
  yaml_parse configText = Some config →
  repoName ∈ map repo_name (repos config) →
  saveBookmark configPath repoName bookmark w
  = writeFile configPath (stringifyYaml (withBookmark config repoName bookmark)) w.
Proof.
  intros Hfile Hparse Hin.
  rewrite (saveBookmark_parsed w configPath repoName configText bookmark config) by done.
  unfold withBookmark.
  by destruct (list_find_named repoName (repos config) Hin) as (i & repo & ->).
Qed.

(** X3. A bookmark that was saved is found again: when the parser reads back
    what the serializer wrote, loading the file after [saveBookmark] gives a
    configuration in which [getBookmarksForRepo] answers, for the
    repository that was named, with its former bookmarks followed by the new
    one, and for every other name with what it answered before. *)
Theorem saveBookmark_then_getBookmarks
    `{!YamlParse RepoConfig, !YamlStringify RepoConfig}
    (w : World) (configPath repoName configText : string)
    (bookmark : Bookmark) (config : RepoConfig) :
  files w !! configPath = Some configText →
  yaml_parse configText = Some config →
  repoName ∈ map repo_name (repos config) →
  yaml_parse (stringifyYaml (withBookmark config repoName bookmark))
    = Some (withBookmark config repoName bookmark) →
  ∃ (w' : World) (reloaded : RepoConfig),
    saveBookmark configPath repoName bookmark w = (Resolved (), w')
    ∧ loadConfig configPath w' = (Resolved reloaded, w')
    ∧ getBookmarksForRepo reloaded repoName
      = getBookmarksForRepo config repoName ++ [bookmark]
    ∧ ∀ other : string,
        other ≠ repoName →
        getBookmarksForRepo reloaded other = getBookmarksForRepo config other.
Proof.
  intros Hfile Hparse Hin Hround.
  eexists _, (withBookmark config repoName bookmark).
  split; [by apply (saveBookmark_writes w configPath repoName configText)|].
  split; [|split].
  - unfold loadConfig, await, readFile, parseYaml, writeFile. simpl.
    by rewrite lookup_insert_eq, Hround.
  - rewrite getBookmarksForRepo_withBookmark by done. by rewrite decide_True.
  - intros other Hother.
    destruct (decide (other ∈ map repo_name (repos config))) as [Hin'|Hnot].
    + rewrite getBookmarksForRepo_withBookmark by done.
      by rewrite decide_False, app_nil_r.
    + rewrite !getBookmarksForRepo_unnamed; [done..|].
      by rewrite withBookmark_names.
Qed.

Lemma saveBookmark_then_getBookmarks_witness :
  ∃ (w' : World) (reloaded : RepoConfig),
    @saveBookmark Fixture.parseConfig Fixture.printConfig
      "./config.yml" "owner/repo1" Fixture.newBookmark
      (Fixture.world Fixture.bookmarkedYaml)
    = (Resolved (), w')
    ∧ @loadConfig Fixture.parseConfig "./config.yml" w' = (Resolved reloaded, w')
    ∧ getBookmarksForRepo reloaded "owner/repo1"
      = getBookmarksForRepo Fixture.bookmarked "owner/repo1" ++ [Fixture.newBookmark].
Proof.
  destruct (@saveBookmark_then_getBookmarks Fixture.parseConfig Fixture.printConfig
              (Fixture.world Fixture.bookmarkedYaml) "./config.yml" "owner/repo1"
              Fixture.bookmarkedYaml Fixture.newBookmark Fixture.bookmarked)
    as (w' & reloaded & Hsave & Hload & Hfound & _).
  - vm_compute. reflexivity.
  - vm_compute. reflexivity.
  - apply list_elem_of_In. simpl. tauto.
  - vm_compute. reflexivity.
  - exists w', reloaded. repeat split; assumption.
Defined.

(** X4. Saving a bookmark changes neither the listing of repositories nor
    the branches of any of them: on the configuration that is written,
    [getRepoList] and [getBranchesForRepo] answer as on the one that was
    read. *)
Theorem saveBookmark_keeps_repos_and_branches
    `{!YamlParse RepoConfig, !YamlStringify RepoConfig}
    (w : World) (configPath repoName configText : string)
    (bookmark : Bookmark) (config : RepoConfig) :
  files w !! configPath = Some configText →
  yaml_parse configText = Some config →
  repoName ∈ map repo_name (repos config) →
  ∃ (w' : World) (written : RepoConfig),
    saveBookmark configPath repoName bookmark w = (Resolved (), w')
    ∧ files w' !! configPath = Some (stringifyYaml written)
    ∧ getRepoList written = getRepoList config
    ∧ ∀ name : string,
        getBranchesForRepo written name = getBranchesForRepo config name.
Proof.
  intros Hfile Hparse Hin.
  eexists _, (withBookmark config repoName bookmark).
  split; [by apply (saveBookmark_writes w configPath repoName configText)|].
  split; [|split].
  - unfold writeFile. simpl. apply lookup_insert_eq.
  - unfold getRepoList. by rewrite withBookmark_names.
  - intros name. apply getBranchesForRepo_withBookmark.
Qed.

Lemma saveBookmark_keeps_repos_and_branches_witness :
  ∃ (w' : World) (written : RepoConfig),
    @saveBookmark Fixture.parseConfig Fixture.printConfig
      "./config.yml" "owner/repo1" Fixture.newBookmark
      (Fixture.world Fixture.configYaml)
    = (Resolved (), w')
    ∧ getRepoList written = getRepoList Fixture.config
    ∧ getBranchesForRepo written "owner/repo1"
      = getBranchesForRepo Fixture.config "owner/repo1".
Proof.
  destruct (@saveBookmark_keeps_repos_and_branches Fixture.parseConfig Fixture.printConfig
              (Fixture.world Fixture.configYaml) "./config.yml" "owner/repo1"
              Fixture.configYaml Fixture.newBookmark Fixture.config)
    as (w' & written & Hsave & _ & Hlist & Hbranches).
  - vm_compute. reflexivity.
  - vm_compute. reflexivity.
  - apply list_elem_of_In. simpl. tauto.
  - exists w', written. split; [assumption|]. split; [assumption|]. apply Hbranches.
Defined.

(** X5. A configuration that cannot be read stops [saveBookmark] before
    anything is written.  When there is no file at the path the promise
    rejects with the error of [readFile]; when there is one whose text the
    YAML parser refuses, it rejects with the parser's error.  In both cases
    the world is the one the call started in: no file is created or changed
    and [writeFile] is not called, whatever the repository name and the
    bookmark are. *)
Theorem saveBookmark_unreadable_config
    `{!YamlParse RepoConfig, !YamlStringify RepoConfig}
    (w : World) (configPath repoName : string) (bookmark : Bookmark) :
  (files w !! configPath = None →
   saveBookmark configPath repoName bookmark w = (Rejected (ENOENT configPath), w))
  ∧ (∀ configText : string,
       files w !! configPath = Some configText →
       yaml_parse configText = None →
       saveBookmark configPath repoName bookmark w
       = (Rejected (YAMLParseError configText), w)).
Proof.
  split.
  - intros Hfile. unfold saveBookmark, await, readFile. by rewrite Hfile.
  - intros configText Hfile Hparse.
    unfold saveBookmark, await, readFile, parseYaml. by rewrite Hfile, Hparse.
Qed.

(** A path at which there is no file, and a file that is not YAML. *)
Lemma saveBookmark_unreadable_config_witness :
  @saveBookmark Fixture.parseConfig Fixture.printConfig
    "./missing.yml" "owner/repo1" Fixture.newBookmark (Fixture.world Fixture.configYaml)
  = (Rejected (ENOENT "./missing.yml"), Fixture.world Fixture.configYaml)
  ∧ @saveBookmark Fixture.parseConfig Fixture.printConfig
      "./config.yml" "owner/repo1" Fixture.newBookmark (Fixture.world "repos: [")
    = (Rejected (YAMLParseError "repos: ["), Fixture.world "repos: [").
Proof.
  split.
  - apply (proj1 (@saveBookmark_unreadable_config Fixture.parseConfig Fixture.printConfig
      (Fixture.world Fixture.configYaml) "./missing.yml" "owner/repo1"
      Fixture.newBookmark)).
    vm_compute. reflexivity.
  - apply (proj2 (@saveBookmark_unreadable_config Fixture.parseConfig Fixture.printConfig
      (Fixture.world "repos: [") "./config.yml" "owner/repo1" Fixture.newBookmark)
      "repos: [").
    + vm_compute. reflexivity.
    + vm_compute. reflexivity.
Defined.

(** X6. Two saves in a row add both bookmarks, in the order of the saves:
    when the parser reads back what the first save wrote, the second save
    writes a configuration in which the repository's bookmarks are the
    original ones followed by the first and then the second bookmark, and
    [writeFile] has been called exactly twice, on the same path. *)
Theorem saveBookmark_twice
    `{!YamlParse RepoConfig, !YamlStringify RepoConfig}
    (w : World) (configPath repoName configText : string)
    (first second : Bookmark) (config : RepoConfig) :
  files w !! configPath = Some configText →
  yaml_parse configText = Some config →
  repoName ∈ map repo_name (repos config) →
  yaml_parse (stringifyYaml (withBookmark config repoName first))
    = Some (withBookmark config repoName first) →
  ∃ (w'' : World) (written : RepoConfig),
    (let! _ := saveBookmark configPath repoName first in
     saveBookmark configPath repoName second) w
    = (Resolved (), w'')
    ∧ files w'' !! configPath = Some (stringifyYaml written)
    ∧ writeFileCalls w''
      = writeFileCalls w
        ++ [(configPath, stringifyYaml (withBookmark config repoName first));
            (configPath, stringifyYaml written)]
    ∧ getBookmarksForRepo written repoName
      = getBookmarksForRepo config repoName ++ [first; second].
Proof.
  intros Hfile Hparse Hin Hround.
  exists (mkWorld
            (<[configPath :=
                 stringifyYaml (withBookmark (withBookmark config repoName first)
                                             repoName second)]>
               (<[configPath := stringifyYaml (withBookmark config repoName first)]>
                  (files w)))
            (gh w)
            ((writeFileCalls w
                ++ [(configPath, stringifyYaml (withBookmark config repoName first))])
               ++ [(configPath,
                    stringifyYaml (withBookmark (withBookmark config repoName first)
                                                repoName second))])),
    (withBookmark (withBookmark config repoName first) repoName second).
  split; [|split; [|split]].
  - unfold await at 1.
    rewrite (saveBookmark_writes w configPath repoName configText first config) by done.
    unfold writeFile at 1.
    rewrite (saveBookmark_writes _ configPath repoName
               (stringifyYaml (withBookmark config repoName first)) second
               (withBookmark config repoName first)).
    + done.
    + simpl. apply lookup_insert_eq.
    + done.
    + by rewrite withBookmark_names.
  - simpl. apply lookup_insert_eq.
  - simpl. by rewrite <- app_assoc.
  - rewrite !getBookmarksForRepo_withBookmark, !decide_True, <- app_assoc;
      rewrite ?withBookmark_names; done.
Qed.

Lemma saveBookmark_twice_witness :
  ∃ (w'' : World) (written : RepoConfig),
    (let! _ := @saveBookmark Fixture.parseConfig Fixture.printConfig
                 "./config.yml" "owner/repo1" Fixture.newBookmark in
     @saveBookmark Fixture.parseConfig Fixture.printConfig
       "./config.yml" "owner/repo1" Fixture.thirdBookmark)
      (Fixture.world Fixture.bookmarkedYaml)
    = (Resolved (), w'')
    ∧ getBookmarksForRepo written "owner/repo1"
      = getBookmarksForRepo Fixture.bookmarked "owner/repo1"
        ++ [Fixture.newBookmark; Fixture.thirdBookmark].
Proof.
  destruct (@saveBookmark_twice Fixture.parseConfig Fixture.printConfig
              (Fixture.world Fixture.bookmarkedYaml) "./config.yml" "owner/repo1"
              Fixture.bookmarkedYaml Fixture.newBookmark Fixture.thirdBookmark
              Fixture.bookmarked)
    as (w'' & written & Hrun & _ & _ & Hfound).
  - vm_compute. reflexivity.
  - vm_compute. reflexivity.
  - apply list_elem_of_In. simpl. tauto.
  - vm_compute. reflexivity.
  - exists w'', written. split; assumption.
Defined.

(** ** Reading without writing *)

(** X7. [checkLogin] never rejects and leaves the world alone: it resolves
    to [true] when [gh auth status] succeeds and to [false] when the
    subprocess fails. *)
Theorem checkLogin_never_rejects (w : World) :
  ∃ loggedIn : bool,
    checkLogin w = (Resolved loggedIn, w)
    ∧ (loggedIn = true ↔ is_Some (gh w ["auth"; "status"])).
Proof.
  unfold checkLogin, try_catch, await, execa, resolve.
  destruct (gh w ["auth"; "status"]) as [stdout|].
  - exists true. split; [done|]. split; [by eexists|done].
  - exists false. split; [done|]. split; [done|]. by intros [? ?].
Qed.

(** X8. [getWorkflowInputs] reads and never writes: whatever its outcome,
    the world afterwards is the world before.  Three failures are passed on
    to the caller as rejections: the [gh workflow view] subprocess fails;
    its output is not YAML; the output is YAML but the workflow's dispatch
    trigger carries no mapping (a bare [workflow_dispatch:], or none), so
    that reading [inputs] from it throws a [TypeError].  A trigger that is a
    mapping without an [inputs] key is no failure: the result is the empty
    list. *)
Theorem getWorkflowInputs_failures `{!YamlParse WorkflowDispatchParsed}
    (workflowName repo branch : string) (w : World) :
  (∀ (outcome : Outcome (list WorkflowInput)) (w' : World),
     getWorkflowInputs workflowName repo branch w = (outcome, w') → w' = w)
  ∧ (gh w ["workflow"; "view"; workflowName; "-R"; repo; "--ref"; branch; "--yaml"] = None →
     getWorkflowInputs workflowName repo branch w
     = (Rejected (ExecaError ["workflow"; "view"; workflowName; "-R"; repo; "--ref"; branch;
                              "--yaml"]), w))
  ∧ (∀ stdout : string,
       gh w ["workflow"; "view"; workflowName; "-R"; repo; "--ref"; branch; "--yaml"]
         = Some stdout →
       (yaml_parse stdout = None →
        getWorkflowInputs workflowName repo branch w = (Rejected (YAMLParseError stdout), w))
       ∧ (∀ workflow : WorkflowDispatchParsed,
            yaml_parse stdout = Some workflow →
            (on_workflow_dispatch (wdp_on workflow) = NoWorkflowDispatch →
             getWorkflowInputs workflowName repo branch w = (Rejected TypeError, w))
            ∧ (on_workflow_dispatch (wdp_on workflow) = mkWorkflowDispatch None →
               getWorkflowInputs workflowName repo branch w = (Resolved [], w)))).
Proof.
  unfold getWorkflowInputs, await, execa, parseYaml, resolve, reject.
  split; [|split].
  - intros outcome w'.
    destruct (gh w _) as [stdout|]; [|by intros [= <- <-]].
    destruct (yaml_parse stdout) as [workflow|]; [|by intros [= <- <-]].
    by destruct (on_workflow_dispatch (wdp_on workflow)); intros [= <- <-].
  - by intros ->.
  - intros stdout ->. split.
    + by intros ->.
    + intros workflow ->. split; by intros ->.
Qed.

(** The three failures and the trigger without inputs, one workflow each. *)
Lemma getWorkflowInputs_failures_witness :
  @getWorkflowInputs Fixture.parseManual "Nope" "owner/repo" "main" Fixture.manualWorld
  = (Rejected (ExecaError ["workflow"; "view"; "Nope"; "-R"; "owner/repo"; "--ref"; "main";
                           "--yaml"]),
     Fixture.manualWorld)
  ∧ @getWorkflowInputs Fixture.parseManual "Broken" "owner/repo" "main" Fixture.manualWorld
    = (Rejected (YAMLParseError "name: [Broken"), Fixture.manualWorld)
  ∧ @getWorkflowInputs Fixture.parseManual "Manual" "owner/repo" "main" Fixture.manualWorld
    = (Rejected TypeError, Fixture.manualWorld)
  ∧ @getWorkflowInputs Fixture.parseManual "Plain" "owner/repo" "main" Fixture.manualWorld
    = (Resolved [], Fixture.manualWorld).
Proof.
  split; [|split; [|split]].
  - apply (proj1 (proj2 (@getWorkflowInputs_failures Fixture.parseManual
      "Nope" "owner/repo" "main" Fixture.manualWorld))).
    reflexivity.
  - apply (proj1 (proj2 (proj2 (@getWorkflowInputs_failures Fixture.parseManual
      "Broken" "owner/repo" "main" Fixture.manualWorld)) "name: [Broken" eq_refl)).
    reflexivity.
  - apply (proj1 (proj2 (proj2 (proj2 (@getWorkflowInputs_failures Fixture.parseManual
      "Manual" "owner/repo" "main" Fixture.manualWorld)) Fixture.manualYaml eq_refl)
      Fixture.manual eq_refl)).
    reflexivity.
  - apply (proj2 (proj2 (proj2 (proj2 (@getWorkflowInputs_failures Fixture.parseManual
      "Plain" "owner/repo" "main" Fixture.manualWorld)) Fixture.plainYaml eq_refl)
      Fixture.plain eq_refl)).
    reflexivity.
Defined.

(** ** Prompts for any list of inputs, and for the inputs of a workflow *)

(** X9. Whatever the list of inputs, the record holds under a name the
    prompt of the last input of that name whose type is recognized, and
    nothing when there is none; inputs of an unknown type neither add nor
    remove an entry. *)
Theorem buildInputPrompts_last_wins (inputs : list WorkflowInput) (name : string) :
  createdGroup (buildInputPrompts inputs) !! name
  = last (omap promptFor (filter (λ input, wi_name input = name) inputs)).
Proof.
  induction inputs as [|input inputs IH] using rev_ind; [done|].
  rewrite buildInputPrompts_snoc, filter_app, omap_app.
  unfold buildInputPrompts_step.
  rewrite filter_cons, filter_nil.
  destruct (promptFor input) as [prompt|] eqn:Hp; simpl.
  - case_decide as Hname.
    + simpl. rewrite Hp, last_snoc, Hname. apply lookup_insert_eq.
    + simpl. rewrite app_nil_r, lookup_insert_ne by done. apply IH.
  - case_decide as Hname; simpl; rewrite ?Hp, app_nil_r; apply IH.
Qed.

Lemma toWorkflowInput_names (entries : JsObject WorkflowDispatchInput) :
  map wi_name (map toWorkflowInput entries) = map fst entries.
Proof.
  induction entries as [|[name input] entries IH]; [done|].
  simpl. by rewrite IH.
Qed.

(** X10. From the schema to the prompts: when the workflow's input map has
    distinct keys, the record built from what [getWorkflowInputs] resolves
    to has a prompt under the name of an entry exactly when the entry's
    declared type is one of the five recognized ones; the other entries are
    kept by the schema step and dropped here, with one diagnostic each. *)
Theorem schema_to_prompts `{!YamlParse WorkflowDispatchParsed}
    (workflowName repo branch stdout : string)
    (workflow : WorkflowDispatchParsed) (entries : JsObject WorkflowDispatchInput)
    (w : World) :
  gh w ["workflow"; "view"; workflowName; "-R"; repo; "--ref"; branch; "--yaml"]
    = Some stdout →
  yaml_parse stdout = Some workflow →
  wd_inputs (on_workflow_dispatch (wdp_on workflow)) = Some entries →
  NoDup (map fst entries) →
  ∃ result : list WorkflowInput,
    getWorkflowInputs workflowName repo branch w = (Resolved result, w)
    ∧ (∀ (name : string) (input : WorkflowDispatchInput),
         (name, input) ∈ entries →
         createdGroup (buildInputPrompts result) !! name
           = promptFor (toWorkflowInput (name, input))
         ∧ (is_Some (createdGroup (buildInputPrompts result) !! name)
            ↔ wdi_type input ∈ ["string"; "number"; "environment"; "boolean"; "choice"]))
    ∧ length (errorLog (buildInputPrompts result))
      = length (filter
                  (λ entry : string * WorkflowDispatchInput,
                     wdi_type entry.2 ∉ ["string"; "number"; "environment"; "boolean"; "choice"])
                  entries).
Proof.
  intros Hgh Hparse Hinputs Hnd.
  exists (map toWorkflowInput entries). split; [|split].
  - unfold getWorkflowInputs, await, execa, parseYaml.
    rewrite Hgh, Hparse. simpl.
    destruct (on_workflow_dispatch (wdp_on workflow)) as [inputs|]; [|done].
    simpl in Hinputs. by rewrite Hinputs.
  - intros name input Hin.
    assert (Hlookup : createdGroup (buildInputPrompts (map toWorkflowInput entries)) !! name
                      = promptFor (toWorkflowInput (name, input))).
    { apply (createdGroup_lookup _ (toWorkflowInput (name, input))).
      - by rewrite toWorkflowInput_names.
      - by apply (list_elem_of_fmap_2 toWorkflowInput). }
    split; [done|]. rewrite Hlookup. apply promptFor_recognized.
  - rewrite errorLog_count, length_replicate.
    clear. induction entries as [|[name input] entries IH]; [done|].
    simpl map. rewrite (filter_cons _ (toWorkflowInput (name, input))).
    rewrite (filter_cons _ (name, input)). simpl.
    unfold recognizedTypes in *. case_decide; simpl; by rewrite IH.
Qed.

(** The Deploy workflow: both of its inputs get a prompt. *)
Lemma schema_to_prompts_witness :
  ∃ result : list WorkflowInput,
    @getWorkflowInputs Fixture.parseWorkflow "Deploy" "owner/repo" "main"
      (Fixture.world Fixture.configYaml)
    = (Resolved result, Fixture.world Fixture.configYaml)
    ∧ length (errorLog (buildInputPrompts result)) = 0.
Proof.
  destruct (@schema_to_prompts Fixture.parseWorkflow
              "Deploy" "owner/repo" "main" Fixture.deployYaml Fixture.deploy
              [("environment",
                mkWorkflowDispatchInput "choice" (JString "dev")
                  (Some ["dev"; "staging"; "prod"]) true);
               ("version",
                mkWorkflowDispatchInput "string" (JString "1.0.0") None false)]
              (Fixture.world Fixture.configYaml))
    as (result & Hrun & _ & Hlog).
  - reflexivity.
  - reflexivity.
  - reflexivity.
  - apply (bool_decide_unpack _). vm_compute. exact I.
  - exists result. split; [exact Hrun|]. rewrite Hlog. reflexivity.
Defined.
(** ** Numbers written and read back *)

Lemma pretty_N_char_digit (d : N) :
  (d < 10)%N → radixDigit 10 (pretty_N_char d) = Some d.
Proof.
  intros Hd.
  assert (d = 0 ∨ d = 1 ∨ d = 2 ∨ d = 3 ∨ d = 4 ∨ d = 5 ∨ d = 6 ∨ d = 7 ∨ d = 8 ∨ d = 9)%N
    as Hcases by lia.
  repeat destruct Hcases as [->|Hcases]; try subst d; reflexivity.
Qed.

Lemma pretty_N_char_leading (d : N) :
  (0 < d < 10)%N →
  isWhiteSpace (pretty_N_char d) = false
  ∧ (codeUnit (pretty_N_char d) =? 45)%N = false
  ∧ (codeUnit (pretty_N_char d) =? 43)%N = false
  ∧ (codeUnit (pretty_N_char d) =? 48)%N = false.
Proof.
  intros Hd.
  assert (d = 1 ∨ d = 2 ∨ d = 3 ∨ d = 4 ∨ d = 5 ∨ d = 6 ∨ d = 7 ∨ d = 8 ∨ d = 9)%N
    as Hcases by lia.
  repeat destruct Hcases as [->|Hcases]; try subst d; repeat split; reflexivity.
Qed.

Lemma digits_pretty_N_go (x : N) :
  ∃ k : N, ∀ (acc : N) (s : string),
    digits 10 acc (pretty_N_go x s) = digits 10 (acc * 10 ^ k + x)%N s.
Proof.
  induction (N.lt_wf_0 x) as [x _ IH].
  destruct (decide (x = 0)%N) as [->|Hx].
  - exists 0%N. intros acc s. rewrite pretty_N_go_0. f_equal. lia.
  - destruct (IH (x `div` 10)%N) as [k Hk]; [apply N.div_lt; lia|].
    exists (N.succ k). intros acc s.
    rewrite pretty_N_go_step by lia. rewrite Hk. simpl.
    rewrite pretty_N_char_digit by (apply N.mod_lt; lia).
    f_equal. rewrite N.pow_succ_r'.
    pose proof (N.div_mod x 10). lia.
Qed.

Lemma pretty_N_go_leading (x : N) (s : string) :
  (0 < x)%N →
  ∃ (d : N) (rest : string),
    (0 < d < 10)%N ∧ pretty_N_go x s = String (pretty_N_char d) rest.
Proof.
  revert s. induction (N.lt_wf_0 x) as [x _ IH]. intros s Hx.
  rewrite pretty_N_go_step by done.
  destruct (decide (x < 10)%N) as [Hsmall|Hbig].
  - rewrite N.div_small, pretty_N_go_0 by done.
    exists x, s. rewrite N.mod_small by done. done.
  - apply IH; [apply N.div_lt; lia|].
    apply N.div_str_pos. lia.
Qed.

Lemma startsWith_0x (marker : string) (c : Ascii.ascii) (rest : string) :
  (codeUnit c =? 48)%N = false →
  marker = "0x" ∨ marker = "0X" →
  startsWith marker (String c rest) = false.
Proof.
  intros Hzero Hmarker.
  assert (Hne : Ascii.ascii_of_nat 48 ≠ c).
  { intros <-. discriminate Hzero. }
  apply Ascii.eqb_neq in Hne.
  destruct Hmarker as [-> | ->].
  - change (startsWith "0x" (String c rest))
      with (if Ascii.eqb (Ascii.ascii_of_nat 48) c then startsWith "x" rest else false).
    by rewrite Hne.
  - change (startsWith "0X" (String c rest))
      with (if Ascii.eqb (Ascii.ascii_of_nat 48) c then startsWith "X" rest else false).
    by rewrite Hne.
Qed.

Lemma parseInt_digits (c : Ascii.ascii) (rest : string) (d : N) :
  isWhiteSpace c = false →
  (codeUnit c =? 45)%N = false →
  (codeUnit c =? 43)%N = false →
  (codeUnit c =? 48)%N = false →
  radixDigit 10 c = Some d →
  parseInt (String c rest) = Some (Z.of_N (digits 10 0 (String c rest)))
  ∧ parseInt ("-" +:+ String c rest) = Some (- Z.of_N (digits 10 0 (String c rest)))%Z.
Proof.
  intros Hws Hminus Hplus Hzero Hdigit. split.
  - unfold parseInt. simpl trimStart. rewrite Hws, Hminus, Hplus.
    rewrite !startsWith_0x by auto. simpl orb. cbv iota. by rewrite Hdigit.
  - unfold parseInt.
    change ("-" +:+ String c rest) with (String (Ascii.ascii_of_nat 45) (String c rest)).
    simpl trimStart. change (isWhiteSpace (Ascii.ascii_of_nat 45)) with false. cbv iota.
    change (codeUnit (Ascii.ascii_of_nat 45) =? 45)%N with true. cbv iota.
    rewrite !startsWith_0x by auto. simpl orb. cbv iota. by rewrite Hdigit.
Qed.

Lemma parseInt_pretty_N (x : N) :
  parseInt (pretty x) = Some (Z.of_N x)
  ∧ ((0 < x)%N → parseInt ("-" +:+ pretty x) = Some (- Z.of_N x)%Z).
Proof.
  unfold pretty, pretty_N. case_decide as Hx; [subst; split; [done|lia]|].
  destruct (pretty_N_go_leading x "") as (d & rest & Hd & Hshape); [lia|].
  destruct (pretty_N_char_leading d Hd) as (Hws & Hminus & Hplus & Hzero).
  destruct (digits_pretty_N_go x) as [k Hk].
  assert (Hvalue : digits 10 0 (String (pretty_N_char d) rest) = x).
  { rewrite <- Hshape, Hk. simpl. lia. }
  rewrite Hshape.
  destruct (parseInt_digits (pretty_N_char d) rest d) as [Hplain Hneg];
    [done..|apply pretty_N_char_digit; lia|].
  rewrite Hvalue in Hplain, Hneg. by split.
Qed.

(** [parseInt] reads back the integer that [String] wrote. *)
Lemma parseInt_ToString (z : Z) : parseInt (ToString (JNumber z)) = Some z.
Proof.
  destruct z as [|p|p]; simpl.
  - reflexivity.
  - apply (parseInt_pretty_N (N.pos p)).
  - apply (parseInt_pretty_N (N.pos p)). lia.
Qed.

Lemma pretty_N_char_not_colon (d : N) :
  (d < 10)%N → Ascii.eqb (pretty_N_char d) char_colon = false.
Proof.
  intros Hd.
  assert (d = 0 ∨ d = 1 ∨ d = 2 ∨ d = 3 ∨ d = 4 ∨ d = 5 ∨ d = 6 ∨ d = 7 ∨ d = 8 ∨ d = 9)%N
    as Hcases by lia.
  repeat destruct Hcases as [->|Hcases]; try subst d; reflexivity.
Qed.

Lemma mentions_colon_pretty_N_go (x : N) (s : string) :
  mentions char_colon (pretty_N_go x s) = mentions char_colon s.
Proof.
  revert s. induction (N.lt_wf_0 x) as [x _ IH]. intros s.
  destruct (decide (x = 0)%N) as [->|Hx]; [by rewrite pretty_N_go_0|].
  rewrite pretty_N_go_step by lia.
  rewrite IH by (apply N.div_lt; lia). simpl.
  by rewrite pretty_N_char_not_colon by (apply N.mod_lt; lia).
Qed.

(** The text of an integer has no colon in it and is not empty. *)
Lemma ToString_JNumber_plain (z : Z) :
  mentions char_colon (ToString (JNumber z)) = false
  ∧ ToString (JNumber z) ≠ EmptyString.
Proof.
  assert (Hpos : ∀ p : positive,
            mentions char_colon (pretty (N.pos p)) = false
            ∧ pretty (N.pos p) ≠ EmptyString).
  { intros p. unfold pretty, pretty_N. rewrite decide_False by done.
    split; [by rewrite mentions_colon_pretty_N_go|].
    destruct (pretty_N_go_leading (N.pos p) "") as (d & rest & _ & ->); [lia|done]. }
  destruct z as [|p|p]; simpl.
  - done.
  - apply Hpos.
  - destruct (Hpos p) as [Hcolon _]. split; [|done].
    unfold pretty, pretty_Z, pretty_positive.
    rewrite mentions_append. by rewrite Hcolon.
Qed.

(** The second piece of [tag:text] is [text]. *)
Lemma split_tagged (tag text : string) :
  mentions char_colon tag = false →
  mentions char_colon text = false →
  split char_colon (tag +:+ String char_colon text) !! 1 = Some text.
Proof.
  intros Htag Htext.
  rewrite split_append_sep by done. simpl.
  by rewrite split_single.
Qed.

(** ** The selection menu *)

Lemma resolveSelection_bookmark_value (text : string)
    (bookmarks : list Bookmark) (activeWorkflows : list Workflow) :
  mentions char_colon text = false → text ≠ EmptyString →
  resolveSelection ("bookmark:" +:+ text) bookmarks activeWorkflows
  = match parseInt text with
    | None => ExitWith 1 "Invalid bookmark index"
    | Some bookmarkIndex =>
        match Array_at bookmarks bookmarkIndex with
        | None => ExitWith 1 "Invalid bookmark selection"
        | Some bookmark => BookmarkSelected bookmark
        end
    end.
Proof.
  intros Hcolon Hne. unfold resolveSelection.
  rewrite startsWith_append.
  change ("bookmark:" +:+ text) with ("bookmark" +:+ String char_colon text).
  rewrite split_tagged by done.
  by destruct text.
Qed.

Lemma resolveSelection_workflow_value (text : string)
    (bookmarks : list Bookmark) (activeWorkflows : list Workflow) :
  mentions char_colon text = false → text ≠ EmptyString →
  resolveSelection ("workflow:" +:+ text) bookmarks activeWorkflows
  = match parseInt text with
    | None => ExitWith 1 "Invalid workflow ID"
    | Some workflowId =>
        match Array_find (λ w, wf_id w = workflowId) activeWorkflows with
        | None => ExitWith 1 "Invalid workflow selection"
        | Some selectedWorkflow => WorkflowSelected selectedWorkflow
        end
    end.
Proof.
  intros Hcolon Hne. unfold resolveSelection.
  change (startsWith "bookmark:" ("workflow:" +:+ text)) with false. cbv iota.
  change ("workflow:" +:+ text) with ("workflow" +:+ String char_colon text).
  rewrite split_tagged by done.
  by destruct text.
Qed.

(** X11. Every bookmark the menu offers can be selected: the option built
    for the bookmark at position [idx] sits at position [idx] of the menu,
    and its value resolves to that bookmark. *)
Theorem bookmark_option_round_trip (bookmarks : list Bookmark)
    (activeWorkflows : list Workflow) (idx : nat) (bookmark : Bookmark) :
  bookmarks !! idx = Some bookmark →
  workflowOptions bookmarks activeWorkflows !! idx = Some (bookmarkOption idx bookmark)
  ∧ resolveSelection (mo_value (bookmarkOption idx bookmark)) bookmarks activeWorkflows
    = BookmarkSelected bookmark.
Proof.
  intros Hidx. split.
  - unfold workflowOptions.
    assert ((0 <? length bookmarks)%nat = true) as ->.
    { apply Nat.ltb_lt. apply lookup_lt_Some in Hidx. lia. }
    rewrite lookup_app_l by (rewrite length_imap; by eapply lookup_lt_Some).
    by rewrite list_lookup_imap, Hidx.
  - change (mo_value (bookmarkOption idx bookmark))
      with ("bookmark:" +:+ ToString (JNumber (Z.of_nat idx))).
    destruct (ToString_JNumber_plain (Z.of_nat idx)) as [Hcolon Hne].
    rewrite resolveSelection_bookmark_value by done.
    rewrite parseInt_ToString. unfold Array_at.
    rewrite (proj2 (Z.leb_le 0 (Z.of_nat idx))) by lia.
    by rewrite Nat2Z.id, Hidx.
Qed.

Lemma bookmark_option_round_trip_witness :
  resolveSelection "bookmark:1" [Fixture.existingBookmark; Fixture.newBookmark] []
  = BookmarkSelected Fixture.newBookmark.
Proof.
  apply (proj2 (bookmark_option_round_trip
    [Fixture.existingBookmark; Fixture.newBookmark] [] 1 Fixture.newBookmark eq_refl)).
Defined.

(** X12. Every workflow the menu offers can be selected, as long as its id
    is an integer JavaScript prints digit for digit and reads back exactly
    (at most [MAX_SAFE_INTEGER] in absolute value): the option built for an
    active workflow comes after the bookmark options, at the workflow's own
    position, and its value resolves to the first active workflow with that
    id, which is the workflow itself when no earlier one shares its id. *)
Theorem workflow_option_round_trip (bookmarks : list Bookmark)
    (activeWorkflows : list Workflow) (i : nat) (workflow : Workflow) :
  activeWorkflows !! i = Some workflow →
  (- MAX_SAFE_INTEGER ≤ wf_id workflow ≤ MAX_SAFE_INTEGER)%Z →
  (∀ (j : nat) (earlier : Workflow),
     activeWorkflows !! j = Some earlier → j < i → wf_id earlier ≠ wf_id workflow) →
  workflowOptions bookmarks activeWorkflows !! (length bookmarks + i)
    = Some (workflowOption workflow)
  ∧ resolveSelection (mo_value (workflowOption workflow)) bookmarks activeWorkflows
    = WorkflowSelected workflow.
Proof.
  intros Hi _ Hfirst. split.
  - unfold workflowOptions.
    assert (length (if (0 <? length bookmarks)%nat
                    then imap bookmarkOption bookmarks else [])
            = length bookmarks) as Hlen.
    { destruct bookmarks; [done|]. simpl. by rewrite length_imap. }
    rewrite lookup_app_r by lia. rewrite Hlen.
    replace (length bookmarks + i - length bookmarks) with i by lia.
    by rewrite list_lookup_fmap, Hi.
  - change (mo_value (workflowOption workflow))
      with ("workflow:" +:+ ToString (JNumber (wf_id workflow))).
    destruct (ToString_JNumber_plain (wf_id workflow)) as [Hcolon Hne].
    rewrite resolveSelection_workflow_value by done.
    rewrite parseInt_ToString.
    by rewrite (Array_find_first _ activeWorkflows i workflow).
Qed.

Lemma workflow_option_round_trip_witness :
  resolveSelection "workflow:3" [Fixture.existingBookmark]
    [mkWorkflow "CI" ".github/workflows/ci.yml" 1 "active";
     mkWorkflow "Deploy" ".github/workflows/deploy.yml" 3 "active"]
  = WorkflowSelected (mkWorkflow "Deploy" ".github/workflows/deploy.yml" 3 "active").
Proof.
  refine (proj2 (workflow_option_round_trip [Fixture.existingBookmark]
    [mkWorkflow "CI" ".github/workflows/ci.yml" 1 "active";
     mkWorkflow "Deploy" ".github/workflows/deploy.yml" 3 "active"]
    1 (mkWorkflow "Deploy" ".github/workflows/deploy.yml" 3 "active") eq_refl _ _)).
  - unfold MAX_SAFE_INTEGER. simpl. lia.
  - intros j earlier Hj Hlt.
    assert (j = 0) as -> by lia. simpl in Hj. injection Hj as <-. simpl. lia.
Defined.

(** X13. Whatever string comes back from the menu, the orchestrator goes on
    only with a bookmark of the repository or with a workflow that is in the
    listing and active; every other string ends the process with exit
    code 1. *)
Theorem resolveSelection_sound (selectionStr : string)
    (bookmarks : list Bookmark) (workflows : list Workflow) :
  match resolveSelection selectionStr bookmarks (filterActiveWorkflows workflows) with
  | BookmarkSelected bookmark => bookmark ∈ bookmarks
  | WorkflowSelected workflow => workflow ∈ workflows ∧ wf_state workflow = "active"
  | ExitWith code _ => code = 1%Z
  end.
Proof.
  unfold resolveSelection.
  destruct (startsWith "bookmark:" selectionStr).
  - destruct (split char_colon selectionStr !! 1) as [[|c piece]|]; [done| |done].
    destruct (parseInt (String c piece)) as [index|]; [|done].
    unfold Array_at. destruct (0 <=? index)%Z; [|done].
    destruct (bookmarks !! Z.to_nat index) as [bookmark|] eqn:Hb; [|done].
    by eapply list_elem_of_lookup_2.
  - destruct (split char_colon selectionStr !! 1) as [[|c piece]|]; [done| |done].
    destruct (parseInt (String c piece)) as [id|]; [|done].
    destruct (Array_find _ _) as [workflow|] eqn:Hfind; [|done].
    apply Array_find_present in Hfind as [Hin _].
    rewrite filterActiveWorkflows_filter in Hin.
    by apply list_elem_of_filter in Hin as [? ?].
Qed.

Example resolveSelection_cancelled :
  resolveSelection "Symbol(clack:cancel)" [Fixture.existingBookmark] []
  = ExitWith 1 "Invalid workflow ID".
Proof. reflexivity. Qed.

Lemma ToString_JNumber_inj (a b : Z) :
  ToString (JNumber a) = ToString (JNumber b) → a = b.
Proof.
  intros Heq. pose proof (parseInt_ToString a) as Ha.
  rewrite Heq, parseInt_ToString in Ha. by injection Ha.
Qed.

(** X14. The values of the menu tell its options apart: when the active
    workflows have distinct ids, no two options of the menu carry the same
    value, and the menu has one option per bookmark and per active
    workflow. *)
Theorem workflowOptions_values_distinct (bookmarks : list Bookmark)
    (activeWorkflows : list Workflow) :
  NoDup (map wf_id activeWorkflows) →
  NoDup (map mo_value (workflowOptions bookmarks activeWorkflows))
  ∧ length (workflowOptions bookmarks activeWorkflows)
    = length bookmarks + length activeWorkflows.
Proof.
  intros Hids.
  assert (Hmenu : workflowOptions bookmarks activeWorkflows
                  = imap bookmarkOption bookmarks ++ map workflowOption activeWorkflows).
  { unfold workflowOptions. by destruct bookmarks. }
  rewrite Hmenu. split; [|by rewrite length_app, length_imap, length_map].
  rewrite map_app. apply NoDup_app. split; [|split].
  - apply NoDup_alt. intros i j value.
    rewrite !list_lookup_fmap, !list_lookup_imap.
    destruct (bookmarks !! i) as [bi|]; [|done].
    destruct (bookmarks !! j) as [bj|]; [|done]. simpl.
    intros [= <-] [= Heq].
    apply String.app_inj, ToString_JNumber_inj in Heq. lia.
  - intros value Hleft Hright.
    apply list_elem_of_fmap in Hleft as (option & -> & Hoption).
    apply list_elem_of_lookup_1 in Hoption as [i Hi].
    rewrite list_lookup_imap in Hi.
    destruct (bookmarks !! i) as [b|]; [|done]. injection Hi as <-.
    apply list_elem_of_fmap in Hright as (option' & Heq & Hoption').
    apply list_elem_of_fmap in Hoption' as (w & -> & _).
    discriminate Heq.
  - rewrite <- list_fmap_compose.
    change (mo_value ∘ workflowOption)
      with ((λ id, "workflow:" +:+ ToString (JNumber id)) ∘ wf_id).
    rewrite list_fmap_compose. apply NoDup_fmap_2; [|done].
    intros a b Heq. by apply String.app_inj, ToString_JNumber_inj in Heq.
Qed.

Lemma workflowOptions_values_distinct_witness :
  NoDup (map mo_value
           (workflowOptions [Fixture.existingBookmark; Fixture.newBookmark]
              [mkWorkflow "CI" ".github/workflows/ci.yml" 1 "active";
               mkWorkflow "Deploy" ".github/workflows/deploy.yml" 3 "active"])).
Proof.
  refine (proj1 (workflowOptions_values_distinct
    [Fixture.existingBookmark; Fixture.newBookmark]
    [mkWorkflow "CI" ".github/workflows/ci.yml" 1 "active";
     mkWorkflow "Deploy" ".github/workflows/deploy.yml" 3 "active"] _)).
  apply (bool_decide_unpack _). vm_compute. exact I.
Defined.

(** ** The bookmark that is built from the answers *)

Lemma trimStart_idempotent (s : string) : trimStart (trimStart s) = trimStart s.
Proof.
  induction s as [|c s IH]; [done|]. simpl.
  destruct (isWhiteSpace c) eqn:Hc; [done|]. simpl. by rewrite Hc.
Qed.

Lemma trimEnd_idempotent (s : string) : trimEnd (trimEnd s) = trimEnd s.
Proof.
  induction s as [|c s IH]; [done|]. simpl.
  destruct (trimEnd s) as [|k kept] eqn:Hkept.
  - destruct (isWhiteSpace c) eqn:Hc; [done|]. simpl. by rewrite Hc.
  - change (trimEnd (String c (String k kept)))
      with (match trimEnd (String k kept) with
            | EmptyString => if isWhiteSpace c then EmptyString else String c EmptyString
            | more => String c more
            end).
    by rewrite IH.
Qed.

(** A string that [trimEnd] leaves alone has only such tails. *)
Lemma trimEnd_fixed_tail (c : Ascii.ascii) (s : string) :
  trimEnd (String c s) = String c s → trimEnd s = s.
Proof.
  simpl. destruct (trimEnd s) as [|k kept].
  - destruct (isWhiteSpace c); [done|]. by intros [= <-].
  - by intros [= <-].
Qed.

Lemma trimEnd_trimStart (s : string) :
  trimEnd s = s → trimEnd (trimStart s) = trimStart s.
Proof.
  induction s as [|c s IH]; [done|]. intros Hfixed. simpl trimStart.
  destruct (isWhiteSpace c); [|done].
  apply IH. by eapply trimEnd_fixed_tail.
Qed.

Lemma trim_idempotent (s : string) : trim (trim s) = trim s.
Proof.
  unfold trim.
  rewrite (trimEnd_trimStart (trimEnd s)) by apply trimEnd_idempotent.
  apply trimStart_idempotent.
Qed.

Lemma length_positive_nonempty (s : string) :
  (0 <? String.length s)%nat = true ↔ s ≠ EmptyString.
Proof. destruct s; simpl; [by split|]. split; [done|]. by intros _. Qed.

(** What [trimStart] removes is white space, and what it leaves does not
    start with any. *)
Lemma trimStart_split (s : string) :
  ∃ before : string, s = before +:+ trimStart s ∧ allWhiteSpace before = true.
Proof.
  induction s as [|c s (before & Heq & Hws)]; [by exists ""|]. simpl.
  destruct (isWhiteSpace c) eqn:Hc.
  - exists (String c before). rewrite append_cons, <- Heq. simpl. by rewrite Hc.
  - by exists "".
Qed.

Lemma trimStart_head (s : string) (c : Ascii.ascii) (rest : string) :
  trimStart s = String c rest → isWhiteSpace c = false.
Proof.
  induction s as [|a s IH]; [done|]. simpl.
  destruct (isWhiteSpace a) eqn:Ha; [done|]. by intros [= <- _].
Qed.

(** What [trimEnd] removes is white space, and what it leaves does not end
    with any. *)
Lemma trimEnd_split (s : string) :
  ∃ after : string, s = trimEnd s +:+ after ∧ allWhiteSpace after = true.
Proof.
  induction s as [|c s (after & Heq & Hws)]; [by exists ""|]. simpl.
  destruct (trimEnd s) as [|k kept].
  - rewrite append_nil_l in Heq. subst after.
    destruct (isWhiteSpace c) eqn:Hc.
    + exists (String c s). simpl. by rewrite Hc.
    + by exists s.
  - exists after. by rewrite append_cons, <- Heq.
Qed.

Lemma trimEnd_last (s front : string) (c : Ascii.ascii) :
  trimEnd s = front +:+ String c "" → isWhiteSpace c = false.
Proof.
  revert front. induction s as [|a s IH]; intros front.
  - by destruct front.
  - simpl. destruct (trimEnd s) as [|k kept].
    + destruct (isWhiteSpace a) eqn:Ha; [by destruct front|].
      destruct front as [|f [|g front]]; [by intros [= ->]|done|done].
    + destruct front as [|f front]; [done|].
      rewrite append_cons. intros [= _ Htail]. by apply (IH front).
Qed.

Lemma trim_split (s : string) :
  ∃ before after : string,
    s = before +:+ trim s +:+ after
    ∧ allWhiteSpace before = true ∧ allWhiteSpace after = true.
Proof.
  destruct (trimEnd_split s) as (after & Hend & Hafter).
  destruct (trimStart_split (trimEnd s)) as (before & Hstart & Hbefore).
  exists before, after. split; [|done].
  unfold trim. by rewrite <- append_assoc, <- Hstart.
Qed.

Lemma trim_ends (s : string) :
  (∀ (c : Ascii.ascii) (rest : string), trim s = String c rest → isWhiteSpace c = false)
  ∧ (∀ (front : string) (c : Ascii.ascii),
       trim s = front +:+ String c "" → isWhiteSpace c = false).
Proof.
  unfold trim. split.
  - intros c rest. apply trimStart_head.
  - intros front c Hlast.
    destruct (trimStart_split (trimEnd s)) as (before & Hstart & _).
    apply (trimEnd_last s (before +:+ front)).
    by rewrite append_assoc, <- Hlast.
Qed.

Lemma allWhiteSpace_trim (s : string) : trim s = EmptyString → allWhiteSpace s = true.
Proof.
  intros Hempty. unfold trim in Hempty.
  destruct (trimEnd_split s) as (after & Hend & Hafter).
  destruct (trimStart_split (trimEnd s)) as (before & Hstart & Hbefore).
  rewrite Hempty, append_nil_r in Hstart.
  rewrite Hstart in Hend. rewrite Hend. clear -Hbefore Hafter.
  induction before as [|c before IH]; [done|].
  rewrite append_cons. simpl in *.
  apply andb_true_iff in Hbefore as [-> Hbefore]. by apply IH.
Qed.

(** X15. A bookmark is built exactly from a nickname that has something
    other than white space in it.  The nickname it stores is the typed one
    with white space, and nothing but white space, taken off at both ends:
    the typed nickname is the stored one between two runs of white space,
    and the stored one is not empty and neither starts nor ends with a
    white-space character, so that trimming it again gives it back.  The
    workflow and the branch are stored as they are.  No bookmark is built
    when the typed nickname is white space from end to end. *)
Theorem bookmarkToSave_nickname (nickname selectedWorkflowName actualBranch : string)
    (inputGroup : JsObject JsValue) :
  match bookmarkToSave nickname selectedWorkflowName actualBranch inputGroup with
  | Some bookmark =>
      allWhiteSpace nickname = false
      ∧ (∃ before after : string,
           nickname = before +:+ bm_nickname bookmark +:+ after
           ∧ allWhiteSpace before = true ∧ allWhiteSpace after = true)
      ∧ bm_nickname bookmark ≠ EmptyString
      ∧ (∀ (c : Ascii.ascii) (rest : string),
           bm_nickname bookmark = String c rest → isWhiteSpace c = false)
      ∧ (∀ (front : string) (c : Ascii.ascii),
           bm_nickname bookmark = front +:+ String c "" → isWhiteSpace c = false)
      ∧ bm_nickname bookmark = trim nickname
      ∧ trim (bm_nickname bookmark) = bm_nickname bookmark
      ∧ bm_workflow bookmark = selectedWorkflowName
      ∧ bm_branch bookmark = actualBranch
  | None => allWhiteSpace nickname = true ∧ trim nickname = EmptyString
  end.
Proof.
  unfold bookmarkToSave.
  destruct (0 <? String.length (trim nickname))%nat eqn:Hlen; simpl.
  - apply length_positive_nonempty in Hlen.
    destruct (trim_ends nickname) as [Hhead Hlast].
    split; [|split; [apply trim_split|]].
    + destruct (allWhiteSpace nickname) eqn:Hws; [|done].
      destruct (trim_split nickname) as (before & after & Heq & Hb & Ha).
      destruct (trim nickname) as [|c rest] eqn:Htrim; [done|].
      pose proof (Hhead c rest eq_refl) as Hc.
      rewrite Heq in Hws. clear -Hws Hc. exfalso.
      induction before as [|b before IH].
      * rewrite append_nil_l, append_cons in Hws. simpl in Hws. by rewrite Hc in Hws.
      * rewrite append_cons in Hws. simpl in Hws.
        apply andb_true_iff in Hws as [_ Hws]. by apply IH.
    + repeat split; try done. apply trim_idempotent.
  - assert (Hempty : trim nickname = EmptyString).
    { destruct (trim nickname); [done|discriminate Hlen]. }
    split; [by apply allWhiteSpace_trim|done].
Qed.

(** A nickname typed with blanks around it, and one that is blank. *)
Example bookmarkToSave_trims :
  bookmarkToSave "  Nightly deploy  " "deploy.yml" "main" [("env", JString "prod")]
  = Some (mkBookmark "Nightly deploy" "deploy.yml" "main" [("env", "prod")])
  ∧ bookmarkToSave "   " "deploy.yml" "main" [("env", JString "prod")] = None.
Proof. split; reflexivity. Qed.

(** Assigning a key that is not there yet appends it. *)
Lemma Object_set_fresh {V : Type} (o : JsObject V) (k : string) (v : V) :
  k ∉ map fst o → Object_set o k v = o ++ [(k, v)].
Proof.
  induction o as [|[k' v'] o IH]; [done|]. simpl.
  intros Hfresh. apply not_elem_of_cons in Hfresh as [Hne Hfresh].
  rewrite (proj2 (String.eqb_neq k' k)) by done.
  by rewrite IH.
Qed.

Lemma Object_fromEntries_loop {V : Type} (entries acc : list (string * V)) :
  NoDup (map fst (acc ++ entries)) →
  fold_left (λ o '(k, v), Object_set o k v) entries acc = acc ++ entries.
Proof.
  revert acc. induction entries as [|[k v] entries IH]; intros acc Hnd.
  - by rewrite app_nil_r.
  - simpl. rewrite Object_set_fresh.
    + rewrite IH; rewrite <- app_assoc; done.
    + rewrite map_app in Hnd. apply NoDup_app in Hnd as (_ & Hfresh & _).
      intros Hin. apply (Hfresh k Hin). simpl. apply list_elem_of_here.
Qed.

(** Entries with distinct keys, as an object's own entries are, come back
    from [Object.fromEntries] as they went in. *)
Lemma Object_fromEntries_distinct {V : Type} (entries : list (string * V)) :
  NoDup (map fst entries) → Object_fromEntries entries = entries.
Proof. intros Hnd. unfold Object_fromEntries. by rewrite Object_fromEntries_loop. Qed.

(** X16. Replaying a bookmark dispatches what was dispatched when it was
    saved: for answers with distinct keys, the run arguments and the summary
    computed from the bookmark's stored workflow, branch and inputs are
    those computed from the answers themselves. *)
Theorem bookmark_replays_the_run (nickname selectedWorkflowName repo actualBranch : string)
    (inputGroup : JsObject JsValue) (bookmark : Bookmark) :
  NoDup (map fst (Object_entries inputGroup)) →
  bookmarkToSave nickname selectedWorkflowName actualBranch inputGroup = Some bookmark →
  buildWorkflowRunArgs (bm_workflow bookmark) repo (bm_branch bookmark)
    (bookmarkInputGroup bookmark)
  = buildWorkflowRunArgs selectedWorkflowName repo actualBranch inputGroup
  ∧ buildDisplayInfo (bm_workflow bookmark) repo (bm_branch bookmark)
      (bookmarkInputGroup bookmark)
    = buildDisplayInfo selectedWorkflowName repo actualBranch inputGroup.
Proof.
  intros Hnd. unfold bookmarkToSave.
  destruct (0 <? String.length (trim nickname))%nat; [|done].
  intros [= <-]. unfold bookmarkInputGroup. simpl.
  rewrite Object_fromEntries_distinct.
  2:{ rewrite <- list_fmap_compose.
      erewrite list_fmap_ext; [exact Hnd|]. by intros i [k v]. }
  unfold Object_entries in *. rewrite <- list_fmap_compose. split.
  - unfold buildWorkflowRunArgs, Object_entries.
    rewrite !buildWorkflowRunArgs_loop. f_equal. f_equal.
    rewrite <- list_fmap_compose. apply list_fmap_ext. by intros i [k v].
  - unfold buildDisplayInfo, displayLines, Object_entries. do 2 f_equal.
    rewrite <- list_fmap_compose. apply list_fmap_ext. by intros i [k v].
Qed.

Lemma bookmark_replays_the_run_witness :
  buildWorkflowRunArgs "Deploy" "owner/repo" "main"
    [("environment", JString "staging"); ("dry_run", JString "true")]
  = buildWorkflowRunArgs "Deploy" "owner/repo" "main"
      [("environment", JString "staging"); ("dry_run", JBoolean true)].
Proof.
  refine (proj1 (bookmark_replays_the_run " Staging " "Deploy" "owner/repo" "main"
    [("environment", JString "staging"); ("dry_run", JBoolean true)]
    (mkBookmark "Staging" "Deploy" "main" [("environment", "staging"); ("dry_run", "true")])
    _ eq_refl)).
  apply (bool_decide_unpack _). vm_compute. exact I.
Defined.

(** ** No escaping in the run arguments *)

(** X17. The run arguments do not keep a key apart from its value: an
    equals sign at the end of the key and one at the start of the value give
    the same [-f] element, so an input named [k=v1] with value [v2] and an
    input named [k] with value [v1=v2] are dispatched alike, wherever they
    stand among the inputs. *)
Theorem buildWorkflowRunArgs_no_escaping (w r b k v1 v2 : string)
    (before after : JsObject JsValue) :
  buildWorkflowRunArgs w r b (before ++ (k +:+ "=" +:+ v1, JString v2) :: after)
  = buildWorkflowRunArgs w r b (before ++ (k, JString (v1 +:+ "=" +:+ v2)) :: after).
Proof.
  unfold buildWorkflowRunArgs, Object_entries.
  rewrite !buildWorkflowRunArgs_loop, !map_app. simpl.
  do 3 f_equal. unfold fieldFlag. simpl. f_equal.
  by rewrite !append_assoc.
Qed.
